(** * HierarchyNode: a store-based model of [src/index.ts]

    The class [HierarchyNode] is a mutable object graph: every node owns an
    array of references to its children, and the methods read and write the
    fields of the objects they reach.  The model keeps that shape.  Objects
    live in a store indexed by references, a method is a computation over the
    store, and recursion through the children is bounded by a fuel counter
    (a cyclic object graph makes the TypeScript methods recurse for ever).

    Two objects are the same object when their references are equal; the
    [internalId] of an object is one of its fields, and nothing in the class
    keeps two objects from carrying the same one.  All nodes of a store
    carry metadata of one type [T] (the class defaults the type of the
    children's metadata to that of the parent).

    The file has four parts: the methods of the class and the generation of
    identifiers; trees of references, which describe the shape of a store
    below a root; the properties of the methods on such trees; the claims,
    each followed further down by its instance on a sample store. *)

From Stdlib Require Import ZArith QArith Qround String Ascii List Lia Lqa.
From stdpp Require Import gmap strings list option.

Open Scope string_scope.
Open Scope list_scope.
Open Scope nat_scope.

(** ** Objects and the store *)

Abbreviation ref := nat (only parsing).

(** ** Computations over a store

    [None] is the absence of a result: the fuel ran out, or a reference
    that the store does not hold was followed (no JavaScript program can
    build one). *)

Definition M (S A : Type) : Type := S → option (A * S).

Definition ret {S A} (a : A) : M S A := λ h, Some (a, h).

Definition bind {S A B} (c : M S A) (k : A → M S B) : M S B :=
  λ h, match c h with
       | Some (a, h') => k a h'
       | None => None
       end.

Definition fail {S A} : M S A := λ _, None.

Definition lift {S A} (o : option A) : M S A :=
  λ h, match o with
       | Some a => Some (a, h)
       | None => None
       end.

Notation "'let!' x ':=' c 'in' k" := (bind c (λ x, k))
  (at level 10, x pattern, c at level 100, k at level 200).
Notation "c ';;;' k" := (bind c (λ _, k))
  (at level 100, k at level 200, right associativity).

Section Model.

Variable T : Type.

(** The four fields of [HierarchyNode<T>]. [parentId] and [metadata] are
    [string | null] and [T | null]. *)
Record Node : Type := mkNode {
  internalId : string;
  parentId : option string;
  children : list ref;
  metadata : option T
}.

Abbreviation heap := (gmap ref Node).
Abbreviation M' := (M heap).

Definition with_parentId (p : option string) (n : Node) : Node :=
  mkNode (internalId n) p (children n) (metadata n).

Definition with_children (cs : list ref) (n : Node) : Node :=
  mkNode (internalId n) (parentId n) cs (metadata n).

(** Reading an object through a reference, and writing it back. *)
Definition getNode (r : ref) : M' Node :=
  λ h, match h !! r with
       | Some n => Some (n, h)
       | None => None
       end.

Definition setNode (r : ref) (n : Node) : M' unit :=
  λ h, Some (tt, <[r := n]> h).

(** ** The methods *)

(** [addNode(node)]: [node.parentId = this.internalId; this.children.push(node)].
    The receiver is read again after the first write, since [node] may be
    the receiver itself. *)
Definition addNode (this node : ref) : M' unit :=
  let! me := getNode this in
  let! n := getNode node in
  setNode node (with_parentId (Some (internalId me)) n) ;;;
  let! me' := getNode this in
  setNode this (with_children (children me' ++ [node]) me').

(** The loop [for (const child of cs) { const result = body(child);
    if (result) return result; } return null]. *)
Fixpoint firstResult {A} (body : ref → M' (option A)) (cs : list ref) : M' (option A) :=
  match cs with
  | [] => ret None
  | child :: rest =>
      let! result := body child in
      match result with
      | Some r => ret (Some r)
      | None => firstResult body rest
      end
  end.

(** [getNodeById(targetId)].  Nothing is written while its loop runs, so
    the loop goes over the children array as it is read on entry. *)
Fixpoint getNodeById (fuel : nat) (this : ref) (targetId : string) : M' (option ref) :=
  match fuel with
  | O => fail
  | S fuel =>
      let! me := getNode this in
      if String.eqb (internalId me) targetId then ret (Some this)
      else firstResult (λ child, getNodeById fuel child targetId) (children me)
  end.

(** [removeNodeById(targetId)].  [removeFrom fuel this targetId i] is the
    loop [for (...; i < this.children.length; i++)] entered at index [i]:
    the length and the element are read from the store at every round, as
    the source reads them. *)
Fixpoint removeFrom (fuel : nat) (this : ref) (targetId : string) (i : nat) : M' bool :=
  match fuel with
  | O => fail
  | S fuel =>
      let! me := getNode this in
      if bool_decide (i < length (children me)) then
        let! child := lift (children me !! i) in
        let! c := getNode child in
        if String.eqb (internalId c) targetId then
          setNode this (with_children (delete i (children me)) me) ;;;
          ret true
        else
          let! removed := removeFrom fuel child targetId 0 in
          if removed : bool then ret true
          else removeFrom fuel this targetId (S i)
      else ret false
  end.

Definition removeNodeById (fuel : nat) (this : ref) (targetId : string) : M' bool :=
  removeFrom fuel this targetId 0.

(** [addNodeToNode(targetId, child)] *)
Definition addNodeToNode (fuel : nat) (this : ref) (targetId : string) (child : ref) : M' bool :=
  let! parent := getNodeById fuel this targetId in
  match parent with
  | Some p => addNode p child ;;; ret true
  | None => ret false
  end.

(** Callbacks are computations over the store: they may read and write
    any object, through the methods above or field by field. *)
Definition runCustomFunction {P R} (this : ref) (callback : ref → P → M' R) (params : P) : M' R :=
  callback this params.

(** [runFunctionOnNode(targetId, callback, params)] *)
Definition runFunctionOnNode {P R} (fuel : nat) (this : ref) (targetId : string)
    (callback : ref → P → M' R) (params : P) : M' bool :=
  let! target := getNodeById fuel this targetId in
  match target with
  | Some t => runCustomFunction t callback params ;;; ret true
  | None => ret false
  end.

(** A string is truthy when it is not empty. *)
Definition truthy (s : string) : bool :=
  match s with
  | EmptyString => false
  | String _ _ => true
  end.

(** [getParentNodeId(targetId)]:
    [target && target.parentId ? target.parentId : null] *)
Definition getParentNodeId (fuel : nat) (this : ref) (targetId : string) : M' (option string) :=
  let! target := getNodeById fuel this targetId in
  match target with
  | Some t =>
      let! n := getNode t in
      match parentId n with
      | Some p => if truthy p then ret (Some p) else ret None
      | None => ret None
      end
  | None => ret None
  end.

(** [traverse(reducer, initialValue)].  [traverseFrom fuel this reducer
    accumulator i] is the loop [for (const child of this.children)] with the
    array iterator at index [i]: the iterator reads the length and the
    element from the array at every step, so a reducer that pushes to the
    array or splices it is seen by the loop. *)
Fixpoint traverse {R} (fuel : nat) (this : ref) (reducer : R → ref → M' R)
    (initialValue : R) : M' R :=
  match fuel with
  | O => fail
  | S fuel =>
      let! accumulator := reducer initialValue this in
      traverseFrom fuel this reducer accumulator 0
  end
with traverseFrom {R} (fuel : nat) (this : ref) (reducer : R → ref → M' R)
    (accumulator : R) (i : nat) : M' R :=
  match fuel with
  | O => fail
  | S fuel =>
      let! me := getNode this in
      if bool_decide (i < length (children me)) then
        let! child := lift (children me !! i) in
        let! accumulator := traverse fuel child reducer accumulator in
        traverseFrom fuel this reducer accumulator (S i)
      else ret accumulator
  end.

End Model.

Arguments mkNode {T} _ _ _ _.
Arguments internalId {T} _.
Arguments parentId {T} _.
Arguments children {T} _.
Arguments metadata {T} _.
Arguments with_parentId {T} _ _.
Arguments with_children {T} _ _.
Arguments getNode {T} _ _.
Arguments setNode {T} _ _ _.
Arguments addNode {T} _ _ _.
Arguments firstResult {T A} _ _ _.
Arguments getNodeById {T} _ _ _ _.
Arguments removeFrom {T} _ _ _ _ _.
Arguments removeNodeById {T} _ _ _ _.
Arguments addNodeToNode {T} _ _ _ _ _.
Arguments runCustomFunction {T P R} _ _ _ _.
Arguments runFunctionOnNode {T P R} _ _ _ _ _ _.
Arguments getParentNodeId {T} _ _ _ _.
Arguments traverse {T R} _ _ _ _ _.
Arguments traverseFrom {T R} _ _ _ _ _ _.

Abbreviation heap T := (gmap ref (Node T)).

(** ** Identifier generation and the constructor *)

(** The outcomes of the successive calls of [Math.random()], each a number
    in [[0, 1)]. *)
Definition random_source : Type := nat → Q.

Definition Math_random : M random_source Q :=
  λ src, Some (src 0, λ i, src (S i)).

(** [Number.prototype.toString(16)] on integers. *)
Definition hexDigit (d : Z) : ascii :=
  nth (Z.to_nat d) (list_ascii_of_string "0123456789abcdef") "0"%char.

Fixpoint hexDigits (fuel : nat) (v : Z) (acc : string) : string :=
  match fuel with
  | O => acc
  | S fuel =>
      let acc := String (hexDigit (v mod 16)) acc in
      if (v / 16 =? 0)%Z then acc else hexDigits fuel (v / 16) acc
  end.

Definition toString16 (v : Z) : string :=
  if (v <? 0)%Z then "-" +:+ hexDigits (S (Z.to_nat (Z.log2 (- v)))) (- v) ""
  else hexDigits (S (Z.to_nat (Z.log2 v))) v "".

(** [s.replace(/[xy]/g, callback)]: the callback runs once for each [x] or
    [y], from left to right. *)
Fixpoint replace_xy {S} (callback : ascii → M S string) (s : string) : M S string :=
  match s with
  | EmptyString => ret ""
  | String c rest =>
      if (Ascii.eqb c "x" || Ascii.eqb c "y")%bool then
        let! piece := callback c in
        let! rest' := replace_xy callback rest in
        ret (piece +:+ rest')
      else
        let! rest' := replace_xy callback rest in
        ret (String c rest')
  end.

Definition template : string := "xxxxxxxx-xxxx-4xxx-yxxx-xxxxxxxxxxxx".

(** The logical operators on numbers: [0] is the falsy one. *)
Definition js_and (a b : Z) : Z := if (a =? 0)%Z then a else b.
Definition js_or (a b : Z) : Z := if (a =? 0)%Z then b else a.

(** [generateUniqueID] of [src/index.ts].  The replacer is
    [(c) => { const r = Math.floor(Math.random() * 16);
              const v = c === 'x' ? r : (r && 0x3) || 0x8;
              return v.toString(16); }]. *)
Definition replacer (c : ascii) : M random_source string :=
  let! u := Math_random in
  let r := Qfloor (u * 16) in
  let v := if Ascii.eqb c "x" then r else js_or (js_and r 3) 8 in
  ret (toString16 v).

Definition generateUniqueID : M random_source string :=
  replace_xy replacer template.

Module Lib.

(** [x | 0]: truncation to a 32-bit signed integer. *)
Definition toInt32 (x : Q) : Z :=
  let t := if Qle_bool 0 x then Qfloor x else Qceiling x in
  ((t + 2 ^ 31) mod 2 ^ 32 - 2 ^ 31)%Z.

(** [generateUniqueID] of the compiled [lib/index.js].  The replacer is
    [function (c) { var r = Math.random() * 16 | 0,
                        v = c === 'x' ? r : (r & 0x3 | 0x8);
                    return v.toString(16); }]. *)
Definition replacer (c : ascii) : M random_source string :=
  let! u := Math_random in
  let r := toInt32 (u * 16) in
  let v := if Ascii.eqb c "x" then r else Z.lor (Z.land r 3) 8 in
  ret (toString16 v).

Definition generateUniqueID : M random_source string :=
  replace_xy replacer template.

End Lib.

(** [new HierarchyNode(metadata)]: a fresh object with a generated
    identifier, no parent and no children. [metadata ?? null] maps an
    omitted argument to [null]. *)
Definition new_HierarchyNode {T} (metadata : option T) (src : random_source) (h : heap T)
    : option (ref * random_source * heap T) :=
  match generateUniqueID src with
  | Some (id, src') =>
      let this := fresh (dom h) in
      Some (this, src', <[this := mkNode id None [] metadata]> h)
  | None => None
  end.

(** The textual layout of a random UUID (version 4), as the spec words it:
    36 characters, groups of 8, 4, 4, 4 and 12 hexadecimal digits separated
    by hyphens, the digit 4 at the head of the third group and a variant
    digit at the head of the fourth.  In the pattern, [h] stands for a hexadecimal digit, [v] for one of the
    variant digits 8, 9, a, b, and every other character for itself. *)
Definition isHex (c : ascii) : bool :=
  existsb (Ascii.eqb c) (list_ascii_of_string "0123456789abcdef").

Definition isVariant (c : ascii) : bool :=
  existsb (Ascii.eqb c) (list_ascii_of_string "89ab").

Fixpoint matches (pattern s : string) : bool :=
  match pattern, s with
  | EmptyString, EmptyString => true
  | String p pattern, String c s =>
      (if Ascii.eqb p "h" then isHex c
       else if Ascii.eqb p "v" then isVariant c
       else Ascii.eqb p c) && matches pattern s
  | _, _ => false
  end.

Definition uuid_v4_layout (s : string) : bool :=
  matches "hhhhhhhh-hhhh-4hhh-vhhh-hhhhhhhhhhhh" s.

(** Every outcome of [Math.random()] lies in [[0, 1)]. *)
Definition in_range (src : random_source) : Prop :=
  ∀ i, (0 <= src i)%Q ∧ (src i < 1)%Q.

(** A template and a pattern agree when the pattern expects a hexadecimal
    digit for every [x], a variant digit for every [y], and the same
    character everywhere else. *)
Fixpoint agrees (tpl pattern : string) : bool :=
  match tpl, pattern with
  | EmptyString, EmptyString => true
  | String c tpl, String p pattern =>
      (if Ascii.eqb c "x" then Ascii.eqb p "h"
       else if Ascii.eqb c "y" then Ascii.eqb p "v"
       else Ascii.eqb p c && negb (Ascii.eqb p "h") && negb (Ascii.eqb p "v"))
      && agrees tpl pattern
  | _, _ => false
  end.

(** The source after [k] draws have been taken from it. *)
Definition shift (k : nat) (src : random_source) : random_source :=
  λ i, src (k + i).

(** The number of [x] and [y] in a template: one draw is taken for each. *)
Fixpoint draws (tpl : string) : nat :=
  match tpl with
  | EmptyString => 0
  | String c rest =>
      if (Ascii.eqb c "x" || Ascii.eqb c "y")%bool then S (draws rest)
      else draws rest
  end.

(** Whether every draw taken for a [y] of the template gives [r = 0]. *)
Fixpoint yZero (tpl : string) (src : random_source) : bool :=
  match tpl with
  | EmptyString => true
  | String c rest =>
      if Ascii.eqb c "x" then yZero rest (shift 1 src)
      else if Ascii.eqb c "y" then
        (Qfloor (src 0%nat * 16) =? 0)%Z && yZero rest (shift 1 src)
      else yZero rest src
  end.

(** The pattern that asks for any hexadecimal digit where [pattern] asks
    for a variant digit. *)
Fixpoint loosen (pattern : string) : string :=
  match pattern with
  | EmptyString => EmptyString
  | String p rest => String (if Ascii.eqb p "v" then "h"%char else p) (loosen rest)
  end.

(** ** Trees of references

    An [rtree] lists the objects met when the children arrays are followed
    from a root.  [unfolds h t] says that the store [h] holds exactly this
    structure below [root t]; a store with a cycle below the root has no
    such [t].  In a [tree] no object is met twice. *)

#[local] Unset Elimination Schemes.
Inductive rtree : Type := RNode (r : ref) (cs : list rtree).
#[local] Set Elimination Schemes.

Definition root (t : rtree) : ref := match t with RNode r _ => r end.

Definition subtrees (t : rtree) : list rtree := match t with RNode _ cs => cs end.

(** Depth-first pre-order: the root, then the listing of each subtree in
    turn, from left to right. *)
Fixpoint preorder (t : rtree) : list ref :=
  match t with RNode r cs => r :: flat_map preorder cs end.

(** The objects below the root, in the same order. *)
Definition descendants (t : rtree) : list ref := flat_map preorder (subtrees t).

Fixpoint size (t : rtree) : nat :=
  match t with RNode _ cs => S (list_sum (map size cs)) end.

Definition forest_size (cs : list rtree) : nat := list_sum (map size cs).

Section Spec.

Context {T : Type}.
Implicit Types (h : heap T) (t : rtree) (r : ref).

Fixpoint unfolds h t : bool :=
  match t with
  | RNode r cs =>
      match h !! r with
      | Some n => bool_decide (children n = map root cs) && forallb (unfolds h) cs
      | None => false
      end
  end.

Definition tree h t : bool :=
  unfolds h t && bool_decide (NoDup (preorder t)).

(** The object behind [r] carries the identifier [targetId]. *)
Definition hasId h (targetId : string) r : bool :=
  match h !! r with
  | Some n => String.eqb (internalId n) targetId
  | None => false
  end.

Definition idOf h r : option string := internalId <$> h !! r.

(** The identifiers of the objects of [t] are pairwise distinct. *)
Definition distinctIds h t : bool :=
  bool_decide (NoDup (idOf h <$> preorder t)).

(** [x] is reached from [r] by following children arrays. *)
Inductive reach h : ref → ref → Prop :=
  | reach_here r : reach h r r
  | reach_child r n c x :
      h !! r = Some n → c ∈ children n → reach h c x → reach h r x.

(** [splice p i h]: the store after [p.children.splice(i, 1)]. *)
Definition splice (p : ref) (i : nat) h : heap T :=
  match h !! p with
  | Some n => <[p := with_children (delete i (children n)) n]> h
  | None => h
  end.

(** The left fold of a reducer over a list of objects, the store being
    handed from one call of the reducer to the next. *)
Fixpoint foldM {R} (reducer : R → ref → M (heap T) R) (nodes : list ref)
    (accumulator : R) : M (heap T) R :=
  match nodes with
  | [] => ret accumulator
  | node :: rest =>
      let! accumulator := reducer accumulator node in
      foldM reducer rest accumulator
  end.

(** The removal on trees of references.  [cutForest] scans the subtrees of
    [p] from index [i]; the result names the parent and the index of the
    subtree that is cut, the subtree itself, and what remains. *)
Fixpoint cutForest (cut : rtree → option (ref * nat * rtree * rtree))
    (matching : ref → bool) (p : ref) (i : nat) (cs : list rtree)
    : option (ref * nat * rtree * list rtree) :=
  match cs with
  | [] => None
  | c :: rest =>
      if matching (root c) then Some (p, i, c, rest)
      else match cut c with
           | Some (q, j, x, c') => Some (q, j, x, c' :: rest)
           | None =>
               match cutForest cut matching p (S i) rest with
               | Some (q, j, x, rest') => Some (q, j, x, c :: rest')
               | None => None
               end
           end
  end.

Fixpoint cutTree (matching : ref → bool) t : option (ref * nat * rtree * rtree) :=
  match t with
  | RNode r cs =>
      match cutForest (cutTree matching) matching r 0 cs with
      | Some (q, j, x, cs') => Some (q, j, x, RNode r cs')
      | None => None
      end
  end.

(** Following the words of the spec for [removeNodeById]: the immediate
    children are searched first and the first one that matches is spliced
    out; only when none matches is each child's subtree searched in order. *)
Fixpoint firstTrue (body : ref → M (heap T) bool) (cs : list ref) : M (heap T) bool :=
  match cs with
  | [] => ret false
  | child :: rest =>
      let! removed := body child in
      if removed : bool then ret true else firstTrue body rest
  end.

Fixpoint findIndex (p : ref → bool) (cs : list ref) : option nat :=
  match cs with
  | [] => None
  | c :: rest => if p c then Some 0 else S <$> findIndex p rest
  end.

Fixpoint removeNodeById_spec (fuel : nat) (this : ref) (targetId : string) : M (heap T) bool :=
  match fuel with
  | O => fail
  | S fuel =>
      let! me := getNode this in
      λ h, match findIndex (hasId h targetId) (children me) with
           | Some i =>
               (setNode this (with_children (delete i (children me)) me) ;;; ret true) h
           | None =>
               firstTrue (λ child, removeNodeById_spec fuel child targetId) (children me) h
           end
  end.

(** ** Auxiliary notions for the proofs *)

(** The result of [removeNodeById] that corresponds to a cut. *)
Definition outcome {X} h (res : option (ref * nat * rtree * X)) : bool * heap T :=
  match res with
  | Some (p, i, _, _) => (true, splice p i h)
  | None => (false, h)
  end.

(** What a cut of [t] is: the subtree [x] that is cut is the first one in
    pre-order whose root matches, it sits at index [i] of the children of
    [p], and what remains is again the unfolding of the store after the
    splice. *)
Definition cut_spec h (matching : ref → bool) t
    (res : option (ref * nat * rtree * rtree)) : Prop :=
  match res with
  | None => List.find matching (flat_map preorder (subtrees t)) = None
  | Some (p, i, x, t') =>
      List.find matching (flat_map preorder (subtrees t)) = Some (root x)
      ∧ (∃ np, h !! p = Some np ∧ children np !! i = Some (root x))
      ∧ p ∈ preorder t
      ∧ unfolds h x = true
      ∧ preorder t ≡ₚ preorder t' ++ preorder x
      ∧ root t' = root t
      ∧ (NoDup (preorder t) → unfolds (splice p i h) t' = true)
  end.

(** What [removeNodeById] leaves alone: the objects of the store stay the
    same objects, and only children arrays are written. *)
Definition fields (n : Node T) : string * option string * option T :=
  (internalId n, parentId n, metadata n).

(** The store after [this.addNode(node)], [me] and [n] being the objects
    behind [this] and [node]. *)
Definition attached (this node : ref) (me n : Node T) h : heap T :=
  let h1 := <[node := with_parentId (Some (internalId me)) n]> h in
  match h1 !! this with
  | Some me' => <[this := with_children (children me' ++ [node]) me']> h1
  | None => h1
  end.

(** A reducer that only looks at the store: it computes the new accumulator
    from the old one, the node and whatever it reads. *)
Definition observer {R} (f : R → ref → heap T → R) : R → ref → M (heap T) R :=
  λ acc node h, Some (f acc node h, h).

(** A reducer is free to write the fields of the objects it visits, but it
    leaves every children array as it is. *)
Definition keepsChildren {R} (reducer : R → ref → M (heap T) R) : Prop :=
  ∀ acc r h acc' h', reducer acc r h = Some (acc', h') →
  ∀ x, children <$> h' !! x = children <$> h !! x.

End Spec.

(** [graft p tc t]: the tree [t] after the subtree [tc] has become the last
    child of [p]. *)
Fixpoint graft (p : ref) (tc : rtree) (t : rtree) : rtree :=
  match t with
  | RNode r cs =>
      RNode r (map (graft p tc) cs ++ (if bool_decide (r = p) then [tc] else []))
  end.

(** ** Reducers used further down *)

Section Reducers.

Context {T : Type}.

(** The reducer
    [(found, node) => found ?? (node.internalId === targetId ? node : null)]. *)
Definition keepFirst (targetId : string) (found : option ref) (node : ref)
    (h : heap T) : option ref :=
  match found with
  | Some x => Some x
  | None => if hasId h targetId node then Some node else None
  end.

(** The reducer [(visited, node) => [...visited, node]]. *)
Definition collect (visited : list ref) (node : ref) (h : heap T) : list ref :=
  visited ++ [node].

End Reducers.

(** The object [r] lies on a cycle of the store: one of its children leads
    back to it. *)
Definition onCycle {T} (h : heap T) (r : ref) : Prop :=
  ∃ n j c, h !! r = Some n ∧ children n !! j = Some c ∧ reach h c r.

(** ** Sample stores *)

Definition leaf (id : string) (p : option string) : Node nat := mkNode id p [] None.

(** [R] owns [A] and [C]; [A] owns [B]. *)
Definition sampleStore : heap nat :=
  <[0 := mkNode "R" None [1; 3] None]>
  (<[1 := mkNode "A" (Some "R") [2] None]>
  (<[2 := leaf "B" (Some "A")]>
  (<[3 := leaf "C" (Some "R")]> ∅))).

Definition sampleTree : rtree :=
  RNode 0 [RNode 1 [RNode 2 []]; RNode 3 []].

(** As [sampleStore], but the grandchild [2] and the child [3] carry the
    same identifier. *)
Definition clashStore : heap nat :=
  <[0 := mkNode "R" None [1; 3] None]>
  (<[1 := mkNode "A" (Some "R") [2] None]>
  (<[2 := leaf "X" (Some "A")]>
  (<[3 := leaf "X" (Some "R")]> ∅))).

(** [sampleStore] and one more object, [D], attached to nothing. *)
Definition detachedStore : heap nat := <[4 := leaf "D" None]> sampleStore.

(** A callback that records its parameter as the metadata of the object
    it is called on. *)
Definition tag (target : ref) (params : nat) : M (heap nat) string :=
  let! n := getNode target in
  setNode target (mkNode (internalId n) (parentId n) (children n) (Some params)) ;;;
  ret (internalId n).


(** Every outcome of [Math.random()] is one half. *)
Definition halves : random_source := λ _, (1 # 2)%Q.

(** A store with a cycle: [R] owns [A] and itself. *)
Definition loopStore : heap nat :=
  <[0 := mkNode "R" None [1; 0] None]> (<[1 := leaf "A" (Some "R")]> ∅).

(** Two unrelated objects that carry the same identifier. *)
Definition twinStore : heap nat :=
  <[0 := leaf "P" None]> (<[1 := leaf "P" None]> ∅).

(** * Properties *)

Section Theory.

Context {T : Type}.
Implicit Types (h : heap T) (t : rtree) (r : ref).

(** ** Running computations *)

Lemma bind_Some {S A B} (c : M S A) (k : A → M S B) s a s' :
  c s = Some (a, s') → bind c k s = k a s'.
Proof. unfold bind. by intros ->. Qed.

Lemma bind_None {S A B} (c : M S A) (k : A → M S B) s :
  c s = None → bind c k s = None.
Proof. unfold bind. by intros ->. Qed.

Lemma bind_inv {S A B} (c : M S A) (k : A → M S B) s b s'' :
  bind c k s = Some (b, s'') → ∃ a s', c s = Some (a, s') ∧ k a s' = Some (b, s'').
Proof.
  unfold bind. destruct (c s) as [[a s']|]; [|done]. intros Hk. by exists a, s'.
Qed.

Lemma getNode_Some h r n : h !! r = Some n → getNode r h = Some (n, h).
Proof. unfold getNode. by intros ->. Qed.

Lemma getNode_inv h r n h' : getNode r h = Some (n, h') → h !! r = Some n ∧ h' = h.
Proof. unfold getNode. destruct (h !! r); [|done]. by intros [= -> ->]. Qed.

Lemma bind_getNode {B} r n (k : Node T → M (heap T) B) h :
  h !! r = Some n → bind (getNode r) k h = k n h.
Proof. intros Hr. apply bind_Some. by apply getNode_Some. Qed.

Lemma bind_lift {S A B} (o : option A) a (k : A → M S B) s :
  o = Some a → bind (lift o) k s = k a s.
Proof. by intros ->. Qed.

Lemma hasId_Some h targetId r n :
  h !! r = Some n → hasId h targetId r = String.eqb (internalId n) targetId.
Proof. unfold hasId. by intros ->. Qed.

Lemma hasId_true h targetId r :
  hasId h targetId r = true ↔ idOf h r = Some targetId.
Proof.
  unfold hasId, idOf. destruct (h !! r) as [n|]; simpl; [|done].
  rewrite String.eqb_eq. split; congruence.
Qed.

(** ** Trees of references *)

Lemma rtree_ind (P : rtree → Prop) :
  (∀ r cs, Forall P cs → P (RNode r cs)) → ∀ t, P t.
Proof.
  intros step. fix IH 1. intros [r cs]. apply step.
  induction cs as [|c cs IHcs]; constructor; [apply IH | exact IHcs].
Qed.

Lemma size_pos t : 0 < size t.
Proof. destruct t; simpl; lia. Qed.

Lemma forest_size_cons c cs : forest_size (c :: cs) = size c + forest_size cs.
Proof. reflexivity. Qed.

Lemma forest_size_app cs1 cs2 :
  forest_size (cs1 ++ cs2) = forest_size cs1 + forest_size cs2.
Proof.
  induction cs1 as [|c cs1 IH]; [reflexivity|].
  rewrite <- app_comm_cons, !forest_size_cons, IH. lia.
Qed.

Lemma size_RNode r cs : size (RNode r cs) = S (forest_size cs).
Proof. reflexivity. Qed.

Lemma preorder_length t : length (preorder t) = size t.
Proof.
  induction t as [r cs IH] using rtree_ind. simpl. f_equal.
  induction IH as [|c cs Hc _ IHcs]; [reflexivity|].
  simpl. rewrite length_app, Hc, IHcs. reflexivity.
Qed.

Lemma root_in_preorder t : root t ∈ preorder t.
Proof. destruct t; simpl; left. Qed.

Lemma unfolds_RNode h r cs :
  unfolds h (RNode r cs) = true ↔
  ∃ n, h !! r = Some n ∧ children n = map root cs ∧ Forall (λ c, unfolds h c = true) cs.
Proof.
  simpl. destruct (h !! r) as [n|]; split.
  - intros [Hc Hf]%andb_prop. exists n. split; [done|]. split.
    + by apply bool_decide_eq_true in Hc.
    + apply List.Forall_forall. intros c Hin. by apply (proj1 (forallb_forall _ _) Hf).
  - intros (n' & [= <-] & Hc & Hf). apply andb_true_intro. split.
    + by apply bool_decide_eq_true.
    + apply forallb_forall. intros c Hin. by apply (proj1 (List.Forall_forall _ _) Hf).
  - done.
  - intros (? & ? & _); done.
Qed.

Lemma tree_unfolds h t : tree h t = true → unfolds h t = true.
Proof. by intros [? _]%andb_prop. Qed.

Lemma tree_NoDup h t : tree h t = true → NoDup (preorder t).
Proof. intros [_ ?%bool_decide_eq_true]%andb_prop. done. Qed.

(** [unfolds] only reads the children arrays of the objects of the tree. *)
Lemma unfolds_agree h h' t :
  (∀ x, x ∈ preorder t → children <$> h' !! x = children <$> h !! x) →
  unfolds h t = true → unfolds h' t = true.
Proof.
  induction t as [r cs IH] using rtree_ind. intros Hagree.
  rewrite !unfolds_RNode. intros (n & Hr & Hc & Hf).
  pose proof (Hagree r (root_in_preorder (RNode r cs))) as Hroot.
  rewrite Hr in Hroot. destruct (h' !! r) as [n'|] eqn:Hr'; [|done].
  simpl in Hroot. injection Hroot as Hroot.
  exists n'. split; [done|]. split; [congruence|].
  clear Hr Hr' Hroot Hc. induction cs as [|c cs IHcs]; [constructor|].
  inversion IH as [|? ? IHc IHrest]; subst. inversion Hf as [|? ? Hfc Hfrest]; subst.
  constructor.
  - apply IHc; [|done]. intros x Hx. apply Hagree. simpl. right.
    apply elem_of_app. by left.
  - apply IHcs; [done| |done]. intros x Hx. apply Hagree.
    simpl in *. apply elem_of_cons in Hx as [->|Hx]; [left|].
    right. apply elem_of_app. by right.
Qed.

Lemma find_app {A} (p : A → bool) (l1 l2 : list A) :
  List.find p (l1 ++ l2) =
  match List.find p l1 with Some x => Some x | None => List.find p l2 end.
Proof.
  induction l1 as [|a l1 IH]; [reflexivity|]. simpl. by destruct (p a).
Qed.

Lemma find_ext_in {A} (p q : A → bool) (l : list A) :
  (∀ x, x ∈ l → p x = q x) → List.find p l = List.find q l.
Proof.
  induction l as [|a l IH]; [reflexivity|]. intros Hpq. simpl.
  rewrite (Hpq a) by left. destruct (q a); [reflexivity|].
  apply IH. intros x Hx. apply Hpq. by right.
Qed.

Lemma find_Some_elem {A} (p : A → bool) (l : list A) x :
  List.find p l = Some x → x ∈ l ∧ p x = true.
Proof.
  intros [Hin Hp]%find_some. split; [by apply list_elem_of_In | done].
Qed.

Lemma find_None_elem {A} (p : A → bool) (l : list A) :
  List.find p l = None ↔ ∀ x, x ∈ l → p x = false.
Proof.
  split.
  - intros Hnone x Hx. apply (find_none _ _ Hnone). by apply list_elem_of_In.
  - induction l as [|a l IH]; [reflexivity|]. intros Hall. simpl.
    rewrite (Hall a) by left. apply IH. intros x Hx. apply Hall. by right.
Qed.

(** ** [getNodeById] returns the first match of the pre-order listing *)

Lemma getNodeById_forest f targetId h cs :
  Forall (λ c, ∀ fuel, size c ≤ fuel →
    getNodeById fuel (root c) targetId h
    = Some (List.find (hasId h targetId) (preorder c), h)) cs →
  forest_size cs ≤ f →
  firstResult (λ child, getNodeById f child targetId) (map root cs) h
  = Some (List.find (hasId h targetId) (flat_map preorder cs), h).
Proof.
  induction 1 as [|c cs Hc _ IH]; intros Hf; [reflexivity|].
  rewrite forest_size_cons in Hf. cbn [map firstResult flat_map].
  rewrite (bind_Some _ _ _ _ _ (Hc f ltac:(lia))), find_app.
  destruct (List.find _ (preorder c)); [reflexivity|]. apply IH. lia.
Qed.

Lemma getNodeById_unfolds h t targetId fuel :
  unfolds h t = true → size t ≤ fuel →
  getNodeById fuel (root t) targetId h
  = Some (List.find (hasId h targetId) (preorder t), h).
Proof.
  revert fuel. induction t as [r cs IH] using rtree_ind.
  intros fuel (n & Hr & Hc & Hf)%unfolds_RNode Hfuel.
  rewrite size_RNode in Hfuel. destruct fuel as [|f]; [lia|].
  cbn [getNodeById preorder List.find root]. rewrite (bind_getNode _ _ _ _ Hr).
  rewrite (hasId_Some _ _ _ _ Hr).
  destruct (String.eqb (internalId n) targetId); [reflexivity|].
  rewrite Hc. apply getNodeById_forest; [|lia].
  apply List.Forall_forall. intros c Hin fuel' Hfuel'.
  apply (proj1 (List.Forall_forall _ _) IH c Hin); [|done].
  by apply (proj1 (List.Forall_forall _ _) Hf).
Qed.

(** ** [removeNodeById] cuts the tree as [cutTree] does *)

Lemma removeFrom_forest targetId h r n seen todo fuel :
  h !! r = Some n →
  children n = map root (seen ++ todo) →
  Forall (λ c, unfolds h c = true) todo →
  Forall (λ c, ∀ fuel, size c ≤ fuel →
    removeFrom fuel (root c) targetId 0 h
    = Some (outcome h (cutTree (hasId h targetId) c))) todo →
  forest_size todo < fuel →
  removeFrom fuel r targetId (length seen) h
  = Some (outcome h (cutForest (cutTree (hasId h targetId)) (hasId h targetId)
                       r (length seen) todo)).
Proof.
  intros Hr Hc Hunf IH. revert seen fuel Hc.
  induction IH as [|c rest IHc _ IHrest]; intros seen fuel Hc Hfuel.
  - destruct fuel as [|f]; [lia|]. cbn [removeFrom cutForest].
    rewrite (bind_getNode _ _ _ _ Hr), Hc, length_map, app_nil_r.
    rewrite bool_decide_eq_false_2 by lia. reflexivity.
  - inversion Hunf as [|? ? Hunfc Hunfrest]; subst.
    rewrite forest_size_cons in Hfuel. destruct fuel as [|f]; [lia|].
    pose proof (size_pos c) as Hpos.
    cbn [removeFrom cutForest]. rewrite (bind_getNode _ _ _ _ Hr).
    rewrite bool_decide_eq_true_2
      by (rewrite Hc, length_map, length_app; simpl; lia).
    assert (children n !! length seen = Some (root c)) as Hi.
    { rewrite Hc, map_app. simpl. apply list_lookup_middle. by rewrite length_map. }
    rewrite (bind_lift _ _ _ _ Hi).
    destruct c as [rc ccs]. apply unfolds_RNode in Hunfc as (nc & Hrc & _).
    simpl root in *. rewrite (bind_getNode _ _ _ _ Hrc).
    rewrite (hasId_Some _ _ _ _ Hrc).
    destruct (String.eqb (internalId nc) targetId).
    + unfold bind, setNode, ret, outcome, splice. by rewrite Hr.
    + specialize (IHc f ltac:(lia)).
      destruct (cutTree (hasId h targetId) (RNode rc ccs)) as [[[[q j] x] c']|];
        simpl outcome in IHc; rewrite (bind_Some _ _ _ _ _ IHc); [reflexivity|].
      specialize (IHrest Hunfrest (seen ++ [RNode rc ccs]) f).
      rewrite length_app in IHrest. simpl in IHrest.
      replace (length seen + 1) with (S (length seen)) in IHrest by lia.
      rewrite IHrest; [|by rewrite <- app_assoc|lia].
      by destruct (cutForest _ _ r (S (length seen)) rest) as [[[[q j] x] rest']|].
Qed.

Lemma removeNodeById_unfolds h t targetId fuel :
  unfolds h t = true → size t ≤ fuel →
  removeNodeById fuel (root t) targetId h
  = Some (outcome h (cutTree (hasId h targetId) t)).
Proof.
  revert fuel. induction t as [r cs IH] using rtree_ind.
  intros fuel Hunf Hfuel. pose proof Hunf as (n & Hr & Hc & Hf)%unfolds_RNode.
  rewrite size_RNode in Hfuel. unfold removeNodeById. simpl root.
  change 0 with (length (@nil rtree)).
  rewrite (removeFrom_forest targetId h r n [] cs fuel Hr Hc Hf); [| |lia].
  - simpl. by destruct (cutForest _ _ r 0 cs) as [[[[q j] x] cs']|].
  - apply List.Forall_forall. intros c Hin fuel' Hfuel'.
    apply (proj1 (List.Forall_forall _ _) IH c Hin); [|done].
    by apply (proj1 (List.Forall_forall _ _) Hf).
Qed.

(** ** What [cutTree] cuts *)

Lemma elem_of_flat_map {A B} (f : A → list B) (l : list A) (x : B) :
  x ∈ flat_map f l ↔ ∃ y, y ∈ l ∧ x ∈ f y.
Proof.
  rewrite list_elem_of_In, in_flat_map. split.
  - intros (y & Hy & Hx). exists y. by rewrite !list_elem_of_In.
  - intros (y & Hy & Hx). exists y. by rewrite <- !list_elem_of_In.
Qed.

Lemma splice_lookup_ne h p i x : x ≠ p → splice p i h !! x = h !! x.
Proof.
  intros Hne. unfold splice. destruct (h !! p); [|done].
  by apply lookup_insert_ne.
Qed.

Lemma splice_lookup_eq h p i n :
  h !! p = Some n →
  splice p i h !! p = Some (with_children (delete i (children n)) n).
Proof. intros Hp. unfold splice. rewrite Hp. apply lookup_insert_eq. Qed.

Lemma unfolds_splice_notin h p i t :
  p ∉ preorder t → unfolds h t = true → unfolds (splice p i h) t = true.
Proof.
  intros Hnotin. apply unfolds_agree. intros x Hx.
  rewrite splice_lookup_ne; [done|]. by intros ->.
Qed.

Lemma find_preorder_root (matching : ref → bool) t :
  matching (root t) = false →
  List.find matching (preorder t)
  = List.find matching (flat_map preorder (subtrees t)).
Proof. destruct t as [r cs]. simpl. by intros ->. Qed.

Lemma cutForest_spec h matching r n seen todo :
  h !! r = Some n →
  children n = map root (seen ++ todo) →
  Forall (λ c, unfolds h c = true) seen →
  Forall (λ c, unfolds h c = true) todo →
  Forall (λ c, cut_spec h matching c (cutTree matching c)) todo →
  match cutForest (cutTree matching) matching r (length seen) todo with
  | None => List.find matching (flat_map preorder todo) = None
  | Some (p, i, x, todo') =>
      List.find matching (flat_map preorder todo) = Some (root x)
      ∧ (∃ np, h !! p = Some np ∧ children np !! i = Some (root x))
      ∧ (p = r ∨ p ∈ flat_map preorder todo)
      ∧ unfolds h x = true
      ∧ flat_map preorder todo ≡ₚ flat_map preorder todo' ++ preorder x
      ∧ (NoDup (r :: flat_map preorder (seen ++ todo)) →
         unfolds (splice p i h) (RNode r (seen ++ todo')) = true)
  end.
Proof.
  intros Hr Hc Hseen Htodo IH. revert seen Hc Hseen.
  induction IH as [|c rest IHc _ IHrest]; intros seen Hc Hseen; [reflexivity|].
  inversion Htodo as [|? ? Hunfc Hunfrest]; subst.
  cbn [cutForest flat_map].
  destruct (matching (root c)) eqn:Hm.
  - (* the child itself matches *)
    split; [|split; [|split; [|split; [|split]]]].
    + destruct c as [rc ccs]. simpl in *. by rewrite Hm.
    + exists n. split; [done|]. rewrite Hc, map_app. simpl.
      apply list_lookup_middle. by rewrite length_map.
    + by left.
    + done.
    + apply Permutation_app_comm.
    + intros [Hnotin _]%list.NoDup_cons. apply unfolds_RNode.
      exists (with_children (delete (length seen) (children n)) n).
      split; [by apply splice_lookup_eq|]. split.
      * simpl. rewrite Hc, !map_app. simpl.
        rewrite <- (length_map root seen). apply delete_middle.
      * apply Forall_app. split.
        -- apply List.Forall_forall. intros d Hd. apply unfolds_splice_notin.
           ++ intros Hin. apply Hnotin. apply elem_of_flat_map. exists d.
              split; [|done]. apply elem_of_app. left. by apply list_elem_of_In.
           ++ by apply (proj1 (List.Forall_forall _ _) Hseen).
        -- apply List.Forall_forall. intros d Hd. apply unfolds_splice_notin.
           ++ intros Hin. apply Hnotin. apply elem_of_flat_map. exists d.
              split; [|done]. apply elem_of_app. right. right.
              by apply list_elem_of_In.
           ++ by apply (proj1 (List.Forall_forall _ _) Hunfrest).
  - destruct (cutTree matching c) as [[[[p i] x] c']|] eqn:Hcut.
    + (* the match lies below the child *)
      destruct IHc as (Hfind & Hnp & Hp & Hx & Hperm & Hroot & Hafter).
      split; [|split; [|split; [|split; [|split]]]].
      * rewrite find_app, find_preorder_root, Hfind; done.
      * done.
      * right. apply elem_of_app. by left.
      * done.
      * cbn [flat_map]. rewrite Hperm, <- !app_assoc.
        apply Permutation_app_head, Permutation_app_comm.
      * intros [Hnotin Hnodup]%list.NoDup_cons.
        rewrite flat_map_app in Hnotin, Hnodup. cbn [flat_map] in Hnotin, Hnodup.
        apply list.NoDup_app in Hnodup as (_ & Hdisj1 & Hnodup).
        apply list.NoDup_app in Hnodup as (Hnodupc & Hdisj2 & _).
        assert (p ≠ r) as Hpr.
        { intros ->. apply Hnotin. apply elem_of_app. right.
          apply elem_of_app. by left. }
        apply unfolds_RNode. exists n. split; [by rewrite splice_lookup_ne|].
        split; [by rewrite Hc, !map_app; simpl; rewrite Hroot|].
        apply Forall_app. split; [|constructor].
        -- apply List.Forall_forall. intros d Hd. apply unfolds_splice_notin.
           ++ intros Hin. apply (Hdisj1 p).
              ** apply elem_of_flat_map. exists d. split; [|done].
                 by apply list_elem_of_In.
              ** apply elem_of_app. by left.
           ++ by apply (proj1 (List.Forall_forall _ _) Hseen).
        -- by apply Hafter.
        -- apply List.Forall_forall. intros d Hd. apply unfolds_splice_notin.
           ++ intros Hin. apply (Hdisj2 p Hp). apply elem_of_flat_map.
              exists d. split; [|done]. by apply list_elem_of_In.
           ++ by apply (proj1 (List.Forall_forall _ _) Hunfrest).
    + (* nothing below the child: the scan moves to the next sibling *)
      simpl in IHc.
      specialize (IHrest Hunfrest (seen ++ [c])).
      rewrite length_app, Nat.add_1_r, <- app_assoc in IHrest.
      specialize (IHrest Hc).
      assert (Forall (λ c, unfolds h c = true) (seen ++ [c])) as Hseen'.
      { apply Forall_app. split; [done|]. by constructor. }
      specialize (IHrest Hseen').
      destruct (cutForest (cutTree matching) matching r (S (length seen)) rest)
        as [[[[p i] x] rest']|].
      * destruct IHrest as (Hfind & Hnp & Hp & Hx & Hperm & Hafter).
        split; [|split; [|split; [|split; [|split]]]].
        -- rewrite find_app, find_preorder_root, IHc; done.
        -- done.
        -- destruct Hp as [->|Hp]; [by left|]. right. apply elem_of_app. by right.
        -- done.
        -- cbn [flat_map]. rewrite Hperm, <- !app_assoc. done.
        -- intros Hnodup. rewrite <- app_assoc in Hafter. by apply Hafter.
      * rewrite find_app, find_preorder_root, IHc; done.
Qed.

Lemma cutTree_spec h matching t :
  unfolds h t = true → cut_spec h matching t (cutTree matching t).
Proof.
  induction t as [r cs IH] using rtree_ind.
  intros (n & Hr & Hc & Hf)%unfolds_RNode.
  assert (Forall (λ c, cut_spec h matching c (cutTree matching c)) cs) as IH'.
  { apply List.Forall_forall. intros c Hin.
    apply (proj1 (List.Forall_forall _ _) IH c Hin).
    by apply (proj1 (List.Forall_forall _ _) Hf). }
  pose proof (cutForest_spec h matching r n [] cs Hr Hc (Forall_nil _) Hf IH')
    as Hforest.
  cbn [cutTree]. simpl length in Hforest.
  destruct (cutForest (cutTree matching) matching r 0 cs) as [[[[p i] x] cs']|];
    [|exact Hforest].
  destruct Hforest as (Hfind & Hnp & Hp & Hx & Hperm & Hafter).
  split; [done|]. split; [done|]. split.
  { simpl. destruct Hp as [->|Hp]; [left | by right]. }
  split; [done|]. split; [|split; [done|exact Hafter]].
  simpl. by constructor.
Qed.

(** ** Reachability and the pre-order listing *)

Lemma preorder_reach h t x :
  unfolds h t = true → x ∈ preorder t → reach h (root t) x.
Proof.
  induction t as [r cs IH] using rtree_ind.
  intros (n & Hr & Hc & Hf)%unfolds_RNode Hx. simpl in *.
  apply elem_of_cons in Hx as [->|Hx]; [constructor|].
  apply elem_of_flat_map in Hx as (c & Hin & Hx).
  apply list_elem_of_In in Hin.
  apply (reach_child h r n (root c)); [done| |].
  - rewrite Hc. apply list_elem_of_In, in_map, Hin.
  - apply (proj1 (List.Forall_forall _ _) IH c Hin); [|done].
    by apply (proj1 (List.Forall_forall _ _) Hf).
Qed.

Lemma reach_preorder h t x :
  unfolds h t = true → reach h (root t) x → x ∈ preorder t.
Proof.
  intros Hunf Hreach. remember (root t) as r eqn:Hroot.
  revert t Hunf Hroot.
  induction Hreach as [r|r n c x Hr Hin _ IH]; intros t Hunf ->.
  - apply root_in_preorder.
  - destruct t as [r cs]. apply unfolds_RNode in Hunf as (n' & Hr' & Hc & Hf).
    simpl in Hr. rewrite Hr in Hr'. injection Hr' as <-.
    rewrite Hc in Hin. apply list_elem_of_In, in_map_iff in Hin as (ct & <- & Hct).
    simpl. right. apply elem_of_flat_map. exists ct.
    split; [by apply list_elem_of_In|].
    apply IH; [|done]. by apply (proj1 (List.Forall_forall _ _) Hf).
Qed.

Lemma NoDup_fmap_inj {A B} (f : A → B) (l : list A) a b :
  NoDup (f <$> l) → a ∈ l → b ∈ l → f a = f b → a = b.
Proof.
  induction l as [|y l IH]; [by intros _ ?%elem_of_nil|].
  rewrite fmap_cons. intros [Hnotin Hnodup]%list.NoDup_cons.
  intros [->|Ha]%elem_of_cons [->|Hb]%elem_of_cons Hab; [done| | |by apply IH].
  - destruct Hnotin. rewrite Hab. by apply list_elem_of_fmap_2.
  - destruct Hnotin. rewrite <- Hab. by apply list_elem_of_fmap_2.
Qed.

Lemma distinctIds_inj h t targetId a b :
  distinctIds h t = true → a ∈ preorder t → b ∈ preorder t →
  hasId h targetId a = true → hasId h targetId b = true → a = b.
Proof.
  intros Hd%bool_decide_eq_true Ha Hb Hida%hasId_true Hidb%hasId_true.
  apply (NoDup_fmap_inj (idOf h) (preorder t)); [done..|congruence].
Qed.

Lemma distinctIds_NoDup h t : distinctIds h t = true → NoDup (preorder t).
Proof. intros Hd%bool_decide_eq_true. by apply NoDup_fmap_1 in Hd. Qed.

Lemma hasId_splice h p i targetId x :
  hasId (splice p i h) targetId x = hasId h targetId x.
Proof.
  unfold hasId. destruct (decide (x = p)) as [->|Hne].
  - destruct (h !! p) as [n|] eqn:Hp.
    + by rewrite (splice_lookup_eq _ _ _ _ Hp).
    + unfold splice. by rewrite Hp, Hp.
  - by rewrite splice_lookup_ne.
Qed.

(** ** Frame properties *)

(** [getNodeById] writes nothing. *)
Lemma firstResult_readonly {A} (body : ref → M (heap T) (option A)) cs h res h' :
  (∀ c h res h', body c h = Some (res, h') → h' = h) →
  firstResult body cs h = Some (res, h') → h' = h.
Proof.
  intros Hbody. revert h. induction cs as [|c cs IH]; intros h; simpl.
  - by intros [= _ <-].
  - intros (r & h1 & Hc & Hk)%bind_inv. apply Hbody in Hc as ->.
    destruct r as [r|]; [by injection Hk as _ <-|]. by apply IH.
Qed.

Lemma getNodeById_readonly fuel this targetId h res h' :
  getNodeById fuel this targetId h = Some (res, h') → h' = h.
Proof.
  revert this h res h'. induction fuel as [|fuel IH]; intros this h res h'; [done|].
  simpl. intros (me & h1 & [_ ->]%getNode_inv & Hk)%bind_inv.
  destruct (String.eqb (internalId me) targetId); [by injection Hk as _ <-|].
  revert Hk. apply firstResult_readonly. intros c. apply IH.
Qed.

Lemma removeFrom_fields fuel this targetId i h b h' :
  removeFrom fuel this targetId i h = Some (b, h') →
  ∀ x, fields <$> h' !! x = fields <$> h !! x.
Proof.
  revert this i h b h'.
  induction fuel as [|fuel IH]; intros this i h b h'; [done|].
  simpl. intros (me & h1 & [Hme ->]%getNode_inv & Hk)%bind_inv.
  destruct (bool_decide (i < length (children me))); [|by injection Hk as _ <-].
  destruct (children me !! i) as [child|]; [|done].
  apply bind_inv in Hk as (child' & h1 & [= <- <-] & Hk).
  apply bind_inv in Hk as (c & h1 & [Hc ->]%getNode_inv & Hk).
  destruct (String.eqb (internalId c) targetId).
  - injection Hk as _ <-. intros x. destruct (decide (x = this)) as [->|Hne].
    + by rewrite lookup_insert_eq, Hme.
    + by rewrite lookup_insert_ne.
  - apply bind_inv in Hk as (removed & h1 & Hrec & Hk).
    pose proof (IH _ _ _ _ _ Hrec) as Hfields1.
    destruct removed; [by injection Hk as _ <-|].
    intros x. rewrite (IH _ _ _ _ _ Hk x). apply Hfields1.
Qed.

(** ** [addNode] *)

Lemma addNode_run h this node me n :
  h !! this = Some me → h !! node = Some n →
  addNode this node h = Some (tt, attached this node me n h).
Proof.
  intros Hthis Hnode. unfold addNode, attached.
  rewrite (bind_getNode _ _ _ _ Hthis), (bind_getNode _ _ _ _ Hnode).
  unfold bind at 1, setNode at 1.
  set (h1 := <[node := _]> h).
  assert (∃ me', h1 !! this = Some me') as [me' Hme'].
  { subst h1. destruct (decide (this = node)) as [->|Hne].
    - rewrite lookup_insert_eq. eauto.
    - rewrite lookup_insert_ne by done. eauto. }
  by rewrite (bind_getNode _ _ _ _ Hme'), Hme'.
Qed.

Lemma attached_internalId h this node me n x :
  h !! this = Some me → h !! node = Some n →
  internalId <$> attached this node me n h !! x = internalId <$> h !! x.
Proof.
  intros Hthis Hnode. unfold attached.
  destruct (decide (this = node)) as [->|Hne].
  - rewrite lookup_insert_eq. destruct (decide (x = node)) as [->|Hx].
    + by rewrite lookup_insert_eq, Hnode.
    + by rewrite !lookup_insert_ne.
  - rewrite (lookup_insert_ne _ node this) by done. rewrite Hthis.
    destruct (decide (x = this)) as [->|Hx]; [by rewrite lookup_insert_eq, Hthis|].
    rewrite lookup_insert_ne by done.
    destruct (decide (x = node)) as [->|Hx']; [by rewrite lookup_insert_eq, Hnode|].
    by rewrite lookup_insert_ne.
Qed.

Lemma attached_parentId h this node me n :
  h !! this = Some me → h !! node = Some n →
  parentId <$> attached this node me n h !! node = Some (Some (internalId me)).
Proof.
  intros Hthis Hnode. unfold attached.
  destruct (decide (this = node)) as [->|Hne].
  - by rewrite !lookup_insert_eq.
  - rewrite (lookup_insert_ne _ node this) by done. rewrite Hthis.
    rewrite lookup_insert_ne by done. by rewrite lookup_insert_eq.
Qed.

Lemma attached_children h this node me n :
  h !! this = Some me → h !! node = Some n →
  children <$> attached this node me n h !! this = Some (children me ++ [node]).
Proof.
  intros Hthis Hnode. unfold attached.
  destruct (decide (this = node)) as [->|Hne].
  - rewrite !lookup_insert_eq. simpl. congruence.
  - rewrite (lookup_insert_ne _ node this) by done. rewrite Hthis.
    by rewrite lookup_insert_eq.
Qed.

Lemma attached_children_ne h this node me n x :
  h !! this = Some me → h !! node = Some n → x ≠ this →
  children <$> attached this node me n h !! x = children <$> h !! x.
Proof.
  intros Hthis Hnode Hx. unfold attached.
  assert (children <$> (<[node := with_parentId (Some (internalId me)) n]> h) !! x
          = children <$> h !! x) as Hstep.
  { destruct (decide (x = node)) as [->|Hx'].
    - by rewrite lookup_insert_eq, Hnode.
    - by rewrite lookup_insert_ne. }
  destruct (<[node:=_]> h !! this); [|done]. by rewrite lookup_insert_ne.
Qed.

Lemma hasId_agree h h' targetId x :
  internalId <$> h' !! x = internalId <$> h !! x →
  hasId h' targetId x = hasId h targetId x.
Proof.
  unfold hasId. destruct (h' !! x), (h !! x); simpl; try done.
  by intros [= ->].
Qed.

Lemma firstResult_app {A} (body : ref → M (heap T) (option A)) l1 l2 h :
  firstResult body (l1 ++ l2) h =
  match firstResult body l1 h with
  | Some (Some x, h1) => Some (Some x, h1)
  | Some (None, h1) => firstResult body l2 h1
  | None => None
  end.
Proof.
  revert h. induction l1 as [|c l1 IH]; intros h; [reflexivity|].
  simpl. unfold bind. destruct (body c h) as [[[x|] h1]|]; [done| |done].
  apply IH.
Qed.

(** ** [traverse] folds over the pre-order listing *)

Lemma foldM_app {R} (reducer : R → ref → M (heap T) R) l1 l2 acc h :
  foldM reducer (l1 ++ l2) acc h
  = (let! acc' := foldM reducer l1 acc in foldM reducer l2 acc') h.
Proof.
  revert acc h. induction l1 as [|c l1 IH]; intros acc h; [reflexivity|].
  simpl. unfold bind. destruct (reducer acc c h) as [[a h1]|]; [|done].
  by rewrite IH.
Qed.

Lemma foldM_keepsChildren {R} (reducer : R → ref → M (heap T) R) l acc h acc' h' :
  keepsChildren reducer →
  foldM reducer l acc h = Some (acc', h') →
  ∀ x, children <$> h' !! x = children <$> h !! x.
Proof.
  intros Hkeep. revert acc h. induction l as [|c l IH]; intros acc h; simpl.
  - by intros [= _ <-].
  - intros (a & h1 & Hstep & Hrest)%bind_inv x.
    rewrite (IH _ _ Hrest x). by apply (Hkeep _ _ _ _ _ Hstep).
Qed.

Lemma foldM_observer {R} (f : R → ref → heap T → R) l acc h :
  foldM (observer f) l acc h = Some (fold_left (λ a r, f a r h) l acc, h).
Proof. revert acc. induction l as [|c l IH]; intros acc; [reflexivity|]. apply IH. Qed.

Lemma observer_keepsChildren {R} (f : R → ref → heap T → R) :
  keepsChildren (observer f).
Proof. by intros acc r h acc' h' [= _ <-]. Qed.

Lemma traverseFrom_forest {R} (reducer : R → ref → M (heap T) R) r todo :
  keepsChildren reducer →
  Forall (λ c, ∀ fuel acc h, unfolds h c = true → 2 * size c ≤ fuel →
    traverse fuel (root c) reducer acc h = foldM reducer (preorder c) acc h) todo →
  ∀ seen fuel acc h n,
    h !! r = Some n → children n = map root (seen ++ todo) →
    Forall (λ c, unfolds h c = true) todo →
    2 * forest_size todo < fuel →
    traverseFrom fuel r reducer acc (length seen) h
    = foldM reducer (flat_map preorder todo) acc h.
Proof.
  intros Hkeep IH. induction IH as [|c rest IHc _ IHrest];
    intros seen fuel acc h n Hr Hc Hunf Hfuel;
    (destruct fuel as [|f]; [lia|]); cbn [traverseFrom];
    rewrite (bind_getNode _ _ _ _ Hr).
  - rewrite Hc, length_map, app_nil_r.
    by rewrite bool_decide_eq_false_2 by lia.
  - inversion Hunf as [|? ? Hunfc Hunfrest]; subst.
    rewrite forest_size_cons in Hfuel. pose proof (size_pos c) as Hpos.
    rewrite bool_decide_eq_true_2
      by (rewrite Hc, length_map, length_app; simpl; lia).
    assert (children n !! length seen = Some (root c)) as Hi.
    { rewrite Hc, map_app. simpl. apply list_lookup_middle. by rewrite length_map. }
    rewrite (bind_lift _ _ _ _ Hi). cbn [flat_map]. rewrite foldM_app.
    unfold bind at 1 2. rewrite IHc by (done || lia).
    destruct (foldM reducer (preorder c) acc h) as [[a h1]|] eqn:Hrun; [|done].
    pose proof (foldM_keepsChildren _ _ _ _ _ _ Hkeep Hrun) as Hsame.
    pose proof (Hsame r) as Hr1. rewrite Hr in Hr1.
    destruct (h1 !! r) as [n1|] eqn:Hn1; [|done]. injection Hr1 as Hr1.
    specialize (IHrest (seen ++ [c]) f a h1 n1 Hn1).
    rewrite length_app, Nat.add_1_r, <- app_assoc in IHrest.
    apply IHrest; [by rewrite Hr1, Hc| |lia].
    apply List.Forall_forall. intros d Hd.
    apply (unfolds_agree h); [intros x _; apply Hsame|].
    by apply (proj1 (List.Forall_forall _ _) Hunfrest).
Qed.

Lemma traverse_unfolds {R} (reducer : R → ref → M (heap T) R) t :
  keepsChildren reducer →
  ∀ fuel acc h, unfolds h t = true → 2 * size t ≤ fuel →
  traverse fuel (root t) reducer acc h = foldM reducer (preorder t) acc h.
Proof.
  intros Hkeep. induction t as [r cs IH] using rtree_ind.
  intros fuel acc h Hunf Hfuel. rewrite size_RNode in Hfuel.
  destruct fuel as [|f]; [lia|]. cbn [traverse preorder foldM root].
  unfold bind. destruct (reducer acc r h) as [[a h1]|] eqn:Hstep; [|done].
  assert (unfolds h1 (RNode r cs) = true) as Hunf1.
  { apply (unfolds_agree h); [|done]. intros x _.
    by apply (Hkeep _ _ _ _ _ Hstep). }
  apply unfolds_RNode in Hunf1 as (n & Hr & Hc & Hf).
  apply (traverseFrom_forest reducer r cs Hkeep IH [] f a h1 n); [done..|lia].
Qed.

(** ** The children-first reading of the spec

    When at most one object below the receiver matches, searching the
    immediate children first makes the same cut as the loop of the source. *)

Lemma filter_length_app {A} (p : A → bool) (l1 l2 : list A) :
  length (List.filter p (l1 ++ l2))
  = length (List.filter p l1) + length (List.filter p l2).
Proof. by rewrite List.filter_app, length_app. Qed.

Lemma filter_length_pos {A} (p : A → bool) (l : list A) x :
  x ∈ l → p x = true → 0 < length (List.filter p l).
Proof.
  intros Hin Hp. assert (In x (List.filter p l)) as Hx.
  { apply filter_In. split; [by apply list_elem_of_In | done]. }
  destruct (List.filter p l); [done | simpl; lia].
Qed.

Lemma filter_atmost1 {A} (p : A → bool) (l : list A) :
  NoDup l →
  (∀ a b, a ∈ l → b ∈ l → p a = true → p b = true → a = b) →
  length (List.filter p l) ≤ 1.
Proof.
  induction l as [|a l IH]; [simpl; lia|].
  intros [Hnotin Hnodup]%list.NoDup_cons Huniq. simpl.
  destruct (p a) eqn:Hpa.
  - destruct (List.filter p l) as [|b l'] eqn:Hfilter; [simpl; lia|].
    assert (In b (List.filter p l)) as [Hb Hpb]%filter_In by (rewrite Hfilter; by left).
    apply list_elem_of_In in Hb.
    rewrite (Huniq a b) in Hnotin; [done|by left|by right|done..].
  - apply IH; [done|]. intros x y Hx Hy. apply Huniq; by right.
Qed.

Lemma findIndex_Some_pos (m : ref → bool) (cs : list rtree) i :
  findIndex m (map root cs) = Some i →
  0 < length (List.filter m (flat_map preorder cs)).
Proof.
  revert i. induction cs as [|c cs IH]; intros i; [done|]. simpl.
  rewrite filter_length_app. destruct (m (root c)) eqn:Hm.
  - intros _. pose proof (filter_length_pos m (preorder c) (root c)
                            (root_in_preorder c) Hm). lia.
  - destruct (findIndex m (map root cs)) as [j|]; [|done].
    intros _. specialize (IH j eq_refl). lia.
Qed.

Lemma cutTree_None_count h (m : ref → bool) t :
  unfolds h t = true → length (List.filter m (descendants t)) = 0 →
  cutTree m t = None.
Proof.
  intros Hunf Hcount. pose proof (cutTree_spec h m t Hunf) as Hcut.
  destruct (cutTree m t) as [[[[p i] x] t']|]; [|done].
  destruct Hcut as ([Hin Hm]%find_Some_elem & _).
  pose proof (filter_length_pos m _ _ Hin Hm). unfold descendants in *. lia.
Qed.

Lemma filter_descendants_le (m : ref → bool) t :
  length (List.filter m (descendants t)) ≤ length (List.filter m (preorder t)).
Proof. destruct t as [r cs]. unfold descendants. simpl. destruct (m r); simpl; lia. Qed.

Lemma outcome_cons_irrel {X Y} h (res : option (ref * nat * rtree * X)) (f : X → Y) :
  outcome h (match res with
             | Some (q, j, x, rest) => Some (q, j, x, f rest)
             | None => None
             end) = outcome h res.
Proof. by destruct res as [[[[q j] x] rest]|]. Qed.

Lemma cutForest_immediate h (m : ref → bool) r todo k i :
  Forall (λ c, unfolds h c = true) todo →
  findIndex m (map root todo) = Some i →
  length (List.filter m (flat_map preorder todo)) ≤ 1 →
  outcome h (cutForest (cutTree m) m r k todo) = (true, splice r (k + i) h).
Proof.
  intros Hunf. revert k i.
  induction Hunf as [|c rest Hunfc _ IH]; intros k i; [done|].
  cbn [map findIndex cutForest flat_map]. rewrite filter_length_app.
  destruct (m (root c)) eqn:Hm.
  - intros [= <-] _. by rewrite Nat.add_0_r.
  - destruct (findIndex m (map root rest)) as [j|] eqn:Hfind; [|done].
    intros [= <-] Hcount. pose proof (findIndex_Some_pos m rest j Hfind) as Hpos.
    pose proof (filter_descendants_le m c) as Hle.
    rewrite (cutTree_None_count h m c Hunfc) by lia.
    rewrite (outcome_cons_irrel h _ (cons c)).
    rewrite (IH (S k) j eq_refl) by lia. do 2 f_equal. lia.
Qed.

Lemma firstTrue_forest targetId h r f todo k :
  Forall (λ c, removeNodeById_spec f (root c) targetId h
               = Some (outcome h (cutTree (hasId h targetId) c))) todo →
  findIndex (hasId h targetId) (map root todo) = None →
  firstTrue (λ child, removeNodeById_spec f child targetId) (map root todo) h
  = Some (outcome h (cutForest (cutTree (hasId h targetId)) (hasId h targetId)
                       r k todo)).
Proof.
  intros IH. revert k. induction IH as [|c rest IHc _ IHrest]; intros k; [done|].
  cbn [map findIndex firstTrue cutForest].
  destruct (hasId h targetId (root c)); [done|].
  destruct (findIndex _ (map root rest)) eqn:Hfind; [done|]. intros _.
  destruct (cutTree (hasId h targetId) c) as [[[[q j] x] c']|];
    simpl outcome in IHc; rewrite (bind_Some _ _ _ _ _ IHc); [done|].
  rewrite (outcome_cons_irrel h _ (cons c)). by apply IHrest.
Qed.

Lemma removeNodeById_spec_unfolds h t targetId fuel :
  unfolds h t = true →
  length (List.filter (hasId h targetId) (descendants t)) ≤ 1 →
  size t ≤ fuel →
  removeNodeById_spec fuel (root t) targetId h
  = Some (outcome h (cutTree (hasId h targetId) t)).
Proof.
  revert fuel. induction t as [r cs IH] using rtree_ind.
  intros fuel (n & Hr & Hc & Hf)%unfolds_RNode Hcount Hfuel.
  rewrite size_RNode in Hfuel. destruct fuel as [|f]; [lia|].
  unfold descendants in Hcount. cbn [subtrees] in Hcount.
  cbn [removeNodeById_spec root cutTree]. rewrite (bind_getNode _ _ _ _ Hr), Hc.
  rewrite (outcome_cons_irrel h _ (RNode r)).
  destruct (findIndex (hasId h targetId) (map root cs)) as [i|] eqn:Hfind.
  - rewrite (cutForest_immediate h _ r cs 0 i Hf Hfind Hcount).
    unfold bind, setNode, ret, splice. by rewrite Hr, Hc.
  - apply firstTrue_forest; [|done].
    apply List.Forall_forall. intros c Hin.
    apply (proj1 (List.Forall_forall _ _) IH c Hin).
    + by apply (proj1 (List.Forall_forall _ _) Hf).
    + apply in_split in Hin as (l1 & l2 & ->).
      rewrite flat_map_app in Hcount. cbn [flat_map] in Hcount.
      rewrite !filter_length_app in Hcount.
      pose proof (filter_descendants_le (hasId h targetId) c). lia.
    + apply in_split in Hin as (l1 & l2 & ->).
      rewrite forest_size_app, forest_size_cons in Hfuel. lia.
Qed.

Lemma hasId_inv h targetId x :
  hasId h targetId x = true → ∃ n, h !! x = Some n ∧ internalId n = targetId.
Proof.
  unfold hasId. destruct (h !! x) as [n|]; [|done].
  intros Heq%String.eqb_eq. by exists n.
Qed.

Lemma getParentNodeId_readonly fuel this targetId h res h' :
  getParentNodeId fuel this targetId h = Some (res, h') → h' = h.
Proof.
  unfold getParentNodeId.
  intros (target & h1 & ->%getNodeById_readonly & Hk)%bind_inv.
  destruct target as [target|]; [|by injection Hk as _ <-].
  apply bind_inv in Hk as (n & h1 & [_ ->]%getNode_inv & Hk).
  destruct (parentId n) as [p|]; [|by injection Hk as _ <-].
  destruct (truthy p); by injection Hk as _ <-.
Qed.

Lemma fields_parentId (a b : option (Node T)) :
  fields <$> a = fields <$> b → parentId <$> a = parentId <$> b.
Proof. destruct a, b; simpl; try done. unfold fields. by intros [= _ -> _]. Qed.

Lemma fields_internalId (a b : option (Node T)) :
  fields <$> a = fields <$> b → internalId <$> a = internalId <$> b.
Proof. destruct a, b; simpl; try done. unfold fields. by intros [= -> _ _]. Qed.

End Theory.

(** ** The layout of generated identifiers *)

Lemma draw_range (u : Q) :
  (0 <= u)%Q → (u < 1)%Q → (0 ≤ Qfloor (u * 16) < 16)%Z.
Proof.
  intros Hlo Hhi. split.
  - change 0%Z with (Qfloor 0). apply Qfloor_resp_le.
    apply Qmult_le_0_compat; [done|discriminate].
  - rewrite Zlt_Qlt. eapply Qle_lt_trans; [apply Qfloor_le|].
    change (inject_Z 16) with (1 * 16)%Q. by apply Qmult_lt_compat_r.
Qed.

Lemma toInt32_draw (u : Q) :
  (0 <= u)%Q → (u < 1)%Q → Lib.toInt32 (u * 16) = Qfloor (u * 16).
Proof.
  intros Hlo Hhi. pose proof (draw_range u Hlo Hhi) as Hr.
  unfold Lib.toInt32.
  assert (Qle_bool 0 (u * 16) = true) as ->.
  { apply Qle_bool_iff. apply Qmult_le_0_compat; [done|discriminate]. }
  rewrite Z.mod_small; lia.
Qed.

Lemma nibble_cases (P : Z → Prop) :
  P 0%Z → P 1%Z → P 2%Z → P 3%Z → P 4%Z → P 5%Z → P 6%Z → P 7%Z →
  P 8%Z → P 9%Z → P 10%Z → P 11%Z → P 12%Z → P 13%Z → P 14%Z → P 15%Z →
  ∀ v, (0 ≤ v < 16)%Z → P v.
Proof.
  intros ? ? ? ? ? ? ? ? ? ? ? ? ? ? ? ? v Hv.
  replace v with (Z.of_nat (Z.to_nat v)) by lia.
  assert (Z.to_nat v < 16) as Hk by lia. revert Hk.
  generalize (Z.to_nat v). intros k Hk.
  do 16 (destruct k as [|k]; [assumption|]). lia.
Qed.

Lemma toString16_nibble v :
  (0 ≤ v < 16)%Z →
  toString16 v = String (hexDigit v) "" ∧ isHex (hexDigit v) = true.
Proof. revert v. apply nibble_cases; by split. Qed.

Lemma variant_nibble r :
  (0 ≤ r < 16)%Z →
  (0 ≤ Z.lor (Z.land r 3) 8 < 16)%Z
  ∧ isVariant (hexDigit (Z.lor (Z.land r 3) 8)) = true.
Proof.
  revert r.
  apply nibble_cases;
    (split; [vm_compute; split; [discriminate|reflexivity] | reflexivity]).
Qed.

Lemma in_range_tail src : in_range src → in_range (λ i, src (S i)).
Proof. intros Hsrc i. apply Hsrc. Qed.

Lemma Lib_replacer_run c src :
  in_range src →
  Lib.replacer c src
  = Some (toString16 (if Ascii.eqb c "x" then Qfloor (src 0 * 16)
                      else Z.lor (Z.land (Qfloor (src 0 * 16)) 3) 8),
          λ i, src (S i)).
Proof.
  intros Hsrc. destruct (Hsrc 0) as [Hlo Hhi].
  unfold Lib.replacer, bind, Math_random, ret. by rewrite toInt32_draw.
Qed.

Lemma replace_xy_layout tpl pattern src :
  agrees tpl pattern = true → in_range src →
  ∃ id src', replace_xy Lib.replacer tpl src = Some (id, src')
             ∧ matches pattern id = true.
Proof.
  revert pattern src.
  induction tpl as [|c tpl IH]; intros [|p pattern] src Hagree Hsrc; try done.
  - by exists "", src.
  - simpl in Hagree. apply andb_prop in Hagree as [Hhead Htail].
    destruct (Hsrc 0) as [Hlo Hhi].
    pose proof (draw_range _ Hlo Hhi) as Hr.
    destruct (IH pattern _ Htail (in_range_tail _ Hsrc)) as (id1 & src1 & Hrun1 & Hm1).
    destruct (IH pattern _ Htail Hsrc) as (id0 & src0 & Hrun0 & Hm0).
    cbn [replace_xy]. destruct (Ascii.eqb c "x") eqn:Hx.
    + apply Ascii.eqb_eq in Hhead as ->.
      destruct (toString16_nibble _ Hr) as [Hstr Hhex].
      cbn [orb].
      rewrite (bind_Some _ _ _ _ _ (Lib_replacer_run c src Hsrc)).
      rewrite (bind_Some _ _ _ _ _ Hrun1), Hx, Hstr.
      eexists _, _. split; [reflexivity|].
      change (isHex (hexDigit (Qfloor (src 0 * 16))) && matches pattern id1 = true).
      by rewrite Hhex.
    + destruct (Ascii.eqb c "y") eqn:Hy.
      * apply Ascii.eqb_eq in Hhead as ->.
        destruct (variant_nibble _ Hr) as [Hv Hvariant].
        destruct (toString16_nibble _ Hv) as [Hstr _].
        cbn [orb].
        rewrite (bind_Some _ _ _ _ _ (Lib_replacer_run c src Hsrc)).
        rewrite (bind_Some _ _ _ _ _ Hrun1), Hx, Hstr.
        eexists _, _. split; [reflexivity|].
        change (isVariant (hexDigit (Z.lor (Z.land (Qfloor (src 0 * 16)) 3) 8))
                && matches pattern id1 = true).
        by rewrite Hvariant.
      * apply andb_prop in Hhead as [[->%Ascii.eqb_eq Hh%negb_true_iff]%andb_prop
                                      Hv%negb_true_iff].
        cbn [orb]. rewrite (bind_Some _ _ _ _ _ Hrun0).
        eexists _, _. split; [reflexivity|]. cbn [matches].
        by rewrite Hh, Hv, Ascii.eqb_refl.
Qed.

(** In [src/index.ts] the digit written for [y] is 8 when the draw gives
    [r = 0] and 3 for every other draw; it is never 9, a or b. *)
Lemma variant_digit_logical r :
  (0 ≤ r < 16)%Z →
  toString16 (js_or (js_and r 3) 8) = if (r =? 0)%Z then "8" else "3".
Proof. revert r. by apply nibble_cases. Qed.

(** The compiled [lib/index.js] produces the version-4 layout for every
    outcome of the random draws. *)
Lemma Lib_generateUniqueID_layout src :
  in_range src →
  ∃ id src', Lib.generateUniqueID src = Some (id, src')
             ∧ uuid_v4_layout id = true.
Proof. intros Hsrc. by apply replace_xy_layout. Qed.


(** * The claims

    A statement that asks for [unfolds h t] holds on every tree, and also
    on a store where an object is shared between two parents; a statement
    that needs every object to have one parent asks for [tree h t].  The
    fuel that a statement asks for is enough for the call to return. *)

Section Claims.

Context {T : Type}.
Implicit Types (h : heap T) (t : rtree) (r : ref).

(** C1, as amended.  On every tree, [removeNodeById(targetId)] examines the
    objects below the receiver in depth-first pre-order: a child, then the
    whole subtree of that child, then the next sibling.  The first object
    that carries [targetId] is spliced out of the children array that holds
    it and the call returns [true]; when no object below the receiver
    carries [targetId] the call returns [false] and the store is left as it
    was.  The receiver itself is never examined.  When the identifiers of
    the tree are pairwise distinct, searching the immediate children first
    and their subtrees afterwards gives the same result. *)
Theorem removeNodeById_first_in_preorder h t targetId fuel :
  unfolds h t = true → size t ≤ fuel →
  (match List.find (hasId h targetId) (descendants t) with
   | None => removeNodeById fuel (root t) targetId h = Some (false, h)
   | Some x =>
       ∃ p np i, p ∈ preorder t ∧ h !! p = Some np ∧ children np !! i = Some x
         ∧ removeNodeById fuel (root t) targetId h
           = Some (true, <[p := with_children (delete i (children np)) np]> h)
   end)
  ∧ (tree h t = true → distinctIds h t = true →
     removeNodeById_spec fuel (root t) targetId h
     = removeNodeById fuel (root t) targetId h).
Proof.
  intros Hunf Hfuel. rewrite (removeNodeById_unfolds h t targetId fuel Hunf Hfuel).
  split.
  - pose proof (cutTree_spec h (hasId h targetId) t Hunf) as Hcut.
    unfold descendants.
    destruct (cutTree (hasId h targetId) t) as [[[[p i] x] t']|]; simpl in Hcut.
    + destruct Hcut as (-> & (np & Hp & Hi) & Hin & _).
      exists p, np, i. repeat split; try done.
      simpl. unfold splice. by rewrite Hp.
    + by rewrite Hcut.
  - intros Htree Hdistinct. apply removeNodeById_spec_unfolds; [done| |done].
    etrans; [apply filter_descendants_le|].
    apply filter_atmost1; [by apply (tree_NoDup h)|].
    intros a b Ha Hb. by apply (distinctIds_inj h t targetId).
Qed.

(** C4, as amended.  When no object below the receiver carries
    [targetId], the call [removeNodeById(targetId)] returns [false] and the
    store after the call is the store before it: the same objects, with the
    same identifiers, parents, children arrays and metadata.  When an
    object below the receiver carries [targetId] the call returns [true]
    and the first such object is spliced out of the children array that
    holds it, also when [targetId] is the receiver's own identifier.  The
    receiver is
    not examined, so its own identifier gives [false] and the same store
    when no object below the receiver shares it, as is the case whenever
    the identifiers of the tree are pairwise distinct. *)
Theorem removeNodeById_absent h t fuel :
  unfolds h t = true → size t ≤ fuel →
  (∀ targetId, List.find (hasId h targetId) (descendants t) = None →
     removeNodeById fuel (root t) targetId h = Some (false, h))
  ∧ (∀ targetId x, List.find (hasId h targetId) (descendants t) = Some x →
     ∃ p np i, p ∈ preorder t ∧ h !! p = Some np ∧ children np !! i = Some x
       ∧ removeNodeById fuel (root t) targetId h
         = Some (true, <[p := with_children (delete i (children np)) np]> h))
  ∧ (∀ me, h !! root t = Some me →
     (∀ x, x ∈ descendants t → hasId h (internalId me) x = false) →
     removeNodeById fuel (root t) (internalId me) h = Some (false, h))
  ∧ (distinctIds h t = true → ∀ me, h !! root t = Some me →
     removeNodeById fuel (root t) (internalId me) h = Some (false, h)).
Proof.
  intros Hunf Hfuel.
  assert (∀ targetId, List.find (hasId h targetId) (descendants t) = None →
            removeNodeById fuel (root t) targetId h = Some (false, h)) as Habsent.
  { intros targetId Hnone.
    rewrite (removeNodeById_unfolds h t targetId fuel Hunf Hfuel).
    pose proof (cutTree_spec h (hasId h targetId) t Hunf) as Hcut.
    unfold descendants in Hnone.
    destruct (cutTree (hasId h targetId) t) as [[[[p i] x] t']|]; [|done].
    destruct Hcut as (Hsome & _). congruence. }
  split; [exact Habsent|]. split.
  { intros targetId x Hfind.
    rewrite (removeNodeById_unfolds h t targetId fuel Hunf Hfuel).
    pose proof (cutTree_spec h (hasId h targetId) t Hunf) as Hcut.
    unfold descendants in Hfind.
    destruct (cutTree (hasId h targetId) t) as [[[[p i] y] t']|];
      simpl in Hcut; [|congruence].
    destruct Hcut as (Hsome & (np & Hp & Hi) & Hin & _).
    assert (root y = x) as <- by congruence.
    exists p, np, i. repeat split; try done.
    simpl. unfold splice. by rewrite Hp. }
  split.
  { intros me Hme Hnone. by apply Habsent, find_None_elem. }
  intros Hdistinct me Hme. apply Habsent. apply find_None_elem. intros x Hx.
  destruct (hasId h (internalId me) x) eqn:Hid; [|done].
  assert (hasId h (internalId me) (root t) = true) as Hroot.
  { rewrite (hasId_Some _ _ _ _ Hme). apply String.eqb_refl. }
  assert (x ∈ preorder t) as Hin by (destruct t; simpl; by right).
  pose proof (distinctIds_inj h t _ x (root t) Hdistinct Hin (root_in_preorder t)
                Hid Hroot) as ->.
  apply distinctIds_NoDup in Hdistinct. destruct t as [r cs]. simpl in *.
  by apply list.NoDup_cons in Hdistinct as [? _].
Qed.

(** C3, as amended.  On every tree whose identifiers are pairwise distinct,
    and for every identifier carried by an object [x] below the receiver
    (the receiver's own identifier is not one of them),
    [removeNodeById(id)] returns [true], a following [getNodeById(id)] on
    the receiver returns [null], and nothing that was reached from [x] is
    reached from the receiver any more. *)
Theorem removeNodeById_detaches h t targetId x fuel :
  tree h t = true → distinctIds h t = true →
  x ∈ descendants t → hasId h targetId x = true → size t ≤ fuel →
  ∃ h', removeNodeById fuel (root t) targetId h = Some (true, h')
        ∧ getNodeById fuel (root t) targetId h' = Some (None, h')
        ∧ ∀ d, reach h x d → ¬ reach h' (root t) d.
Proof.
  intros Htree Hdistinct Hx Hid Hfuel.
  pose proof (tree_unfolds _ _ Htree) as Hunf.
  pose proof (tree_NoDup _ _ Htree) as Hnodup.
  rewrite (removeNodeById_unfolds h t targetId fuel Hunf Hfuel).
  pose proof (cutTree_spec h (hasId h targetId) t Hunf) as Hcut.
  destruct (cutTree (hasId h targetId) t) as [[[[p i] xt] t']|]; simpl in Hcut.
  2: { apply find_None_elem with (x := x) in Hcut; [congruence|done]. }
  destruct Hcut as (Hfind & _ & _ & Hunfx & Hperm & Hroot & Hafter).
  specialize (Hafter Hnodup).
  apply find_Some_elem in Hfind as [Hxt Hidxt].
  assert (∀ y, y ∈ descendants t → y ∈ preorder t) as Hbelow.
  { intros y Hy. destruct t. simpl. by right. }
  assert (root xt = x) as Hrootx.
  { apply (distinctIds_inj h t targetId); auto. }
  assert (NoDup (preorder t' ++ preorder xt)) as Hnodup' by by rewrite <- Hperm.
  apply list.NoDup_app in Hnodup' as (_ & Hdisj & _).
  exists (splice p i h). split; [done|]. split.
  - rewrite <- Hroot. rewrite getNodeById_unfolds; [|done|].
    2: { rewrite <- !preorder_length in *.
         apply Permutation_length in Hperm. rewrite length_app in Hperm. lia. }
    f_equal. f_equal. apply find_None_elem. intros y Hy.
    rewrite hasId_splice. destruct (hasId h targetId y) eqn:Hidy; [|done].
    assert (y ∈ preorder t) as Hyt.
    { rewrite Hperm. apply elem_of_app. by left. }
    assert (y = x) as -> by (apply (distinctIds_inj h t targetId); auto).
    destruct (Hdisj x Hy). rewrite <- Hrootx. apply root_in_preorder.
  - intros d Hd Hd'. rewrite <- Hrootx in Hd.
    apply (reach_preorder h xt d Hunfx) in Hd.
    rewrite <- Hroot in Hd'. apply (reach_preorder _ t' d Hafter) in Hd'.
    by apply (Hdisj d).
Qed.

(** C5, as amended.  For every parent node and every child node,
    [parent.addNode(child)] succeeds, and after it [child.parentId] is the
    identifier of [parent] and [child] is the last element of
    [parent.children]; this needs no assumption on the store.  When
    [parent] is the root of a tree, [parent.getNodeById(child.internalId)]
    then returns the first object of that tree that carries the identifier
    of [child], and [child] when the tree has none: it returns [child]
    provided that the first such object, if there is one, is [child]
    itself, and so when no other object of the tree shares the
    identifier. *)
Theorem addNode_attaches h this child me n :
  h !! this = Some me → h !! child = Some n →
  ∃ h', addNode this child h = Some (tt, h')
    ∧ parentId <$> h' !! child = Some (Some (internalId me))
    ∧ internalId <$> h' !! this = Some (internalId me)
    ∧ children <$> h' !! this = Some (children me ++ [child])
    ∧ (∀ t fuel, tree h t = true → root t = this → size t < fuel →
         getNodeById fuel this (internalId n) h'
         = Some (Some (default child
                         (List.find (hasId h (internalId n)) (preorder t))), h'))
    ∧ (∀ t fuel, tree h t = true → root t = this → size t < fuel →
         (∀ y, List.find (hasId h (internalId n)) (preorder t) = Some y →
               y = child) →
         getNodeById fuel this (internalId n) h' = Some (Some child, h')).
Proof.
  intros Hthis Hchild. exists (attached this child me n h).
  pose proof (attached_internalId h this child me n this Hthis Hchild) as Hidr.
  pose proof (attached_internalId h this child me n child Hthis Hchild) as Hidc.
  pose proof (attached_children h this child me n Hthis Hchild) as Hcs.
  rewrite Hthis in Hidr. rewrite Hchild in Hidc. simpl in Hidr, Hidc.
  split; [by apply addNode_run|].
  split; [by apply attached_parentId|]. split; [done|]. split; [done|].
  assert (∀ t fuel, tree h t = true → root t = this → size t < fuel →
            getNodeById fuel this (internalId n) (attached this child me n h)
            = Some (Some (default child
                            (List.find (hasId h (internalId n)) (preorder t))),
                    attached this child me n h)) as Hfirst.
  2: { split; [exact Hfirst|]. intros t fuel Htree Hroot Hfuel Hself.
       rewrite (Hfirst t fuel Htree Hroot Hfuel).
       destruct (List.find (hasId h (internalId n)) (preorder t)) as [y|];
         [|done].
       by rewrite (Hself y eq_refl). }
  intros t fuel Htree Hroot Hfuel.
  pose proof (tree_NoDup _ _ Htree) as Hnodup.
  apply tree_unfolds in Htree. destruct t as [r cs].
  cbn [root] in Hroot. subst r.
  apply unfolds_RNode in Htree as (me' & Hr & Hc & Hf).
  rewrite Hthis in Hr. injection Hr as <-.
  rewrite size_RNode in Hfuel.
  set (h' := attached this child me n h) in *.
  destruct (h' !! this) as [me1|] eqn:Hr1; [|done].
  simpl in Hidr, Hcs. injection Hidr as Hidr. injection Hcs as Hcs.
  destruct fuel as [|f]; [lia|]. cbn [getNodeById].
  rewrite (bind_getNode _ _ _ _ Hr1), Hidr.
  assert (∀ x, hasId h' (internalId n) x = hasId h (internalId n) x) as Hids.
  { intros x. apply hasId_agree. by apply attached_internalId. }
  cbn [preorder List.find]. rewrite (hasId_Some _ _ _ _ Hthis).
  destruct (String.eqb (internalId me) (internalId n)); [done|].
  rewrite Hcs, Hc, firstResult_app.
  rewrite (getNodeById_forest f (internalId n) h' cs); [| |lia].
  - rewrite (find_ext_in _ (hasId h (internalId n))) by (intros; apply Hids).
    destruct (List.find (hasId h (internalId n)) (flat_map preorder cs)) as [y|];
      [done|].
    destruct f as [|f]; [lia|].
    destruct (h' !! child) as [n1|] eqn:Hchild1; [|done].
    simpl in Hidc. injection Hidc as Hidc.
    assert (getNodeById (S f) child (internalId n) h' = Some (Some child, h'))
      as Hget.
    { cbn [getNodeById]. rewrite (bind_getNode _ _ _ _ Hchild1).
      by rewrite Hidc, String.eqb_refl. }
    cbn [firstResult]. by rewrite (bind_Some _ _ _ _ _ Hget).
  - apply List.Forall_forall. intros c Hin fuel' Hfuel'.
    apply getNodeById_unfolds; [|done].
    apply (unfolds_agree h); [|by apply (proj1 (List.Forall_forall _ _) Hf)].
    intros x Hx. apply attached_children_ne; [done..|].
    intros ->. simpl in Hnodup. apply list.NoDup_cons in Hnodup as [Hnotin _].
    apply Hnotin, elem_of_flat_map. exists c. split; [|done].
    by apply list_elem_of_In.
Qed.


(** C7.  On every tree, [addNodeToNode(targetId, child)] returns [false]
    and leaves the store as it was when no object of the tree carries
    [targetId]; otherwise it returns [true] and the store is the one that
    [addNode(child)] produces on the first object that carries [targetId]:
    [child.parentId] is [targetId] and [child] is appended to the children
    of that object. *)
Theorem addNodeToNode_found_or_untouched h t targetId child n fuel :
  unfolds h t = true → size t ≤ fuel → h !! child = Some n →
  match List.find (hasId h targetId) (preorder t) with
  | None => addNodeToNode fuel (root t) targetId child h = Some (false, h)
  | Some p =>
      ∃ np h', h !! p = Some np ∧ internalId np = targetId
        ∧ addNode p child h = Some (tt, h')
        ∧ addNodeToNode fuel (root t) targetId child h = Some (true, h')
        ∧ parentId <$> h' !! child = Some (Some targetId)
        ∧ children <$> h' !! p = Some (children np ++ [child])
  end.
Proof.
  intros Hunf Hfuel Hchild. unfold addNodeToNode.
  rewrite (bind_Some _ _ _ _ _ (getNodeById_unfolds h t targetId fuel Hunf Hfuel)).
  destruct (List.find (hasId h targetId) (preorder t)) as [p|] eqn:Hfind; [|done].
  apply find_Some_elem in Hfind as [_ (np & Hp & Hid)%hasId_inv].
  exists np, (attached p child np n h).
  pose proof (addNode_run h p child np n Hp Hchild) as Hrun.
  split; [done|]. split; [done|]. split; [done|].
  split; [by rewrite (bind_Some _ _ _ _ _ Hrun)|].
  split; [|by apply attached_children].
  rewrite <- Hid. by apply attached_parentId.
Qed.

(** C8.  On every tree, [runFunctionOnNode(targetId, callback, params)]
    does what one call [callback(target, params)] does on the first object
    [target] that carries [targetId], drops the value that the callback
    returns, and returns [true]; when no object of the tree carries
    [targetId] it returns [false] and the callback has not run (a callback
    that always throws does not change this outcome). *)
Theorem runFunctionOnNode_once {P R} h t targetId
    (callback : ref → P → M (heap T) R) (params : P) fuel :
  unfolds h t = true → size t ≤ fuel →
  runFunctionOnNode fuel (root t) targetId callback params h =
  match List.find (hasId h targetId) (preorder t) with
  | Some target =>
      match callback target params h with
      | Some (_, h') => Some (true, h')
      | None => None
      end
  | None => Some (false, h)
  end.
Proof.
  intros Hunf Hfuel. unfold runFunctionOnNode, runCustomFunction.
  rewrite (bind_Some _ _ _ _ _ (getNodeById_unfolds h t targetId fuel Hunf Hfuel)).
  destruct (List.find (hasId h targetId) (preorder t)) as [target|]; [|done].
  unfold bind. by destruct (callback target params h) as [[v h']|].
Qed.

(** C9.  On every tree, [removeNodeById] returns and writes no [parentId]:
    every object, the one spliced out included, has the [parentId] it had
    before the call, and that value still names the same objects, since no
    [internalId] is written either.  A later [addNode] on an object
    overwrites its [parentId] with the identifier of the new parent. *)
Theorem removeNodeById_keeps_parentId h t targetId fuel :
  unfolds h t = true → size t ≤ fuel →
  ∃ b h', removeNodeById fuel (root t) targetId h = Some (b, h')
    ∧ (∀ x, parentId <$> h' !! x = parentId <$> h !! x
            ∧ internalId <$> h' !! x = internalId <$> h !! x)
    ∧ (∀ q x me n, h' !! q = Some me → h' !! x = Some n →
         ∃ h'', addNode q x h' = Some (tt, h'')
                ∧ parentId <$> h'' !! x = Some (Some (internalId me))).
Proof.
  intros Hunf Hfuel.
  pose proof (removeNodeById_unfolds h t targetId fuel Hunf Hfuel) as Hrun.
  destruct (outcome h (cutTree (hasId h targetId) t)) as [b h'].
  exists b, h'. split; [done|]. split.
  - intros x.
    pose proof (removeFrom_fields fuel (root t) targetId 0 h b h' Hrun x) as Hx.
    split; [by apply fields_parentId | by apply fields_internalId].
  - intros q x me n Hq Hx. exists (attached q x me n h').
    split; [by apply addNode_run | by apply attached_parentId].
Qed.

(** C10.  [getNodeById] and [getParentNodeId] are read-only.  On every tree
    both return, and the store after the call is the store before it;
    indeed, on any store, whenever one of them returns, the store is
    unchanged. *)
Theorem lookups_readonly h t targetId fuel :
  unfolds h t = true → size t ≤ fuel →
  (∃ res, getNodeById fuel (root t) targetId h = Some (res, h))
  ∧ (∃ res, getParentNodeId fuel (root t) targetId h = Some (res, h))
  ∧ (∀ fuel' this res h',
       getNodeById fuel' this targetId h = Some (res, h') → h' = h)
  ∧ (∀ fuel' this res h',
       getParentNodeId fuel' this targetId h = Some (res, h') → h' = h).
Proof.
  intros Hunf Hfuel.
  pose proof (getNodeById_unfolds h t targetId fuel Hunf Hfuel) as Hget.
  split; [eauto|]. split; [|split].
  - unfold getParentNodeId. rewrite (bind_Some _ _ _ _ _ Hget).
    destruct (List.find (hasId h targetId) (preorder t)) as [target|] eqn:Hfind;
      [|by eexists].
    apply find_Some_elem in Hfind as [_ (n & Hn & _)%hasId_inv].
    rewrite (bind_getNode _ _ _ _ Hn).
    destruct (parentId n) as [p|]; [|by eexists].
    destruct (truthy p); by eexists.
  - intros fuel' this res h' Hrun. by apply getNodeById_readonly in Hrun.
  - intros fuel' this res h' Hrun. by apply getParentNodeId_readonly in Hrun.
Qed.

End Claims.

(** * The claims on sample stores *)

(** C2.  [generateUniqueID] of [src/index.ts] combines the draw with the
    logical operators [&&] and [||] where the compiled [lib/index.js] has
    the bitwise [&] and [|].  When every draw is one half, the identifier
    given to a new node has the digit 3 where the version-4 layout wants
    one of 8, 9, a, b; the compiled file yields 8 on the same draws. *)
Theorem generateUniqueID_variant_digit :
  in_range halves
  ∧ (∃ src' h, new_HierarchyNode (@None nat) halves ∅ = Some (0, src', h)
       ∧ internalId <$> h !! 0 = Some "88888888-8888-4888-3888-888888888888")
  ∧ uuid_v4_layout "88888888-8888-4888-3888-888888888888" = false
  ∧ fst <$> Lib.generateUniqueID halves = Some "88888888-8888-4888-8888-888888888888".
Proof.
  split; [|split; [|split]].
  - intros i. split; [discriminate | reflexivity].
  - eexists _, _. split; [vm_compute; reflexivity | reflexivity].
  - reflexivity.
  - vm_compute. reflexivity.
Qed.

(** C1 as stated fails on [clashStore]: the immediate child [3] carries the
    identifier, yet the call splices the grandchild [2] out of the children
    of [1] and leaves [3] among the children of the receiver.  Searching the
    immediate children first would have removed [3]. *)
Lemma removeNodeById_children_first_fails :
  children <$> clashStore !! 0 = Some [1; 3]
  ∧ hasId clashStore "X" 3 = true
  ∧ ∃ h', removeNodeById 4 0 "X" clashStore = Some (true, h')
          ∧ children <$> h' !! 0 = Some [1; 3]
          ∧ children <$> h' !! 1 = Some []
          ∧ removeNodeById_spec 4 0 "X" clashStore ≠ Some (true, h').
Proof.
  split; [reflexivity|]. split; [reflexivity|].
  eexists. split; [vm_compute; reflexivity|].
  split; [reflexivity|]. split; [reflexivity|].
  intros Hspec. apply (f_equal (λ o, o ≫= λ p, children <$> p.2 !! 0)) in Hspec.
  vm_compute in Hspec. discriminate.
Qed.

Lemma removeNodeById_first_in_preorder_witness :
  (∃ p np i, p ∈ preorder sampleTree ∧ sampleStore !! p = Some np
     ∧ children np !! i = Some 2
     ∧ removeNodeById 4 0 "B" sampleStore
       = Some (true, <[p := with_children (delete i (children np)) np]> sampleStore))
  ∧ removeNodeById_spec 4 0 "B" sampleStore = removeNodeById 4 0 "B" sampleStore.
Proof.
  destruct (removeNodeById_first_in_preorder sampleStore sampleTree "B" 4
              eq_refl (le_n 4)) as [Hfirst Hagree].
  split; [exact Hfirst|].
  apply Hagree; vm_compute; reflexivity.
Defined.

(** C3 as stated fails for the receiver's own identifier: it is present in
    the subtree rooted at the receiver, the identifiers are pairwise
    distinct, and yet the call returns [false] and [getNodeById] still
    finds the receiver. *)
Lemma removeNodeById_own_id_fails :
  tree sampleStore sampleTree = true
  ∧ distinctIds sampleStore sampleTree = true
  ∧ List.find (hasId sampleStore "R") (preorder sampleTree) = Some 0
  ∧ removeNodeById 4 0 "R" sampleStore = Some (false, sampleStore)
  ∧ getNodeById 4 0 "R" sampleStore = Some (Some 0, sampleStore).
Proof. repeat split; vm_compute; reflexivity. Qed.

Lemma removeNodeById_detaches_witness :
  ∃ h', removeNodeById 4 0 "A" sampleStore = Some (true, h')
        ∧ getNodeById 4 0 "A" h' = Some (None, h')
        ∧ ∀ d, reach sampleStore 1 d → ¬ reach h' 0 d.
Proof.
  apply (removeNodeById_detaches sampleStore sampleTree "A" 1 4).
  - vm_compute. reflexivity.
  - vm_compute. reflexivity.
  - change (1 ∈ [1; 2; 3]). left.
  - reflexivity.
  - simpl. lia.
Defined.

(** C4 as stated fails for the receiver's own identifier when an object
    below the receiver shares it.  After [addNode] has put one of the two
    objects of [twinStore] below the other, the store is a tree, both
    objects carry ["P"], and [removeNodeById("P")] on the root returns
    [true] and empties its children array. *)
Lemma removeNodeById_twin_own_id_fails :
  ∃ h, addNode 0 1 twinStore = Some (tt, h)
    ∧ tree h (RNode 0 [RNode 1 []]) = true
    ∧ internalId <$> h !! 0 = Some "P"
    ∧ children <$> h !! 0 = Some [1]
    ∧ ∃ h', removeNodeById 2 0 "P" h = Some (true, h')
            ∧ children <$> h' !! 0 = Some []
            ∧ removeNodeById 2 0 "P" h ≠ Some (false, h).
Proof.
  eexists. split; [vm_compute; reflexivity|].
  split; [vm_compute; reflexivity|]. split; [reflexivity|].
  split; [reflexivity|].
  eexists. split; [vm_compute; reflexivity|]. split; [reflexivity|].
  intros Hrun. apply (f_equal (fmap fst)) in Hrun. vm_compute in Hrun.
  discriminate.
Qed.

Lemma removeNodeById_absent_witness :
  removeNodeById 4 0 "nonexistent" sampleStore = Some (false, sampleStore)
  ∧ (∃ p np i, p ∈ preorder sampleTree ∧ sampleStore !! p = Some np
       ∧ children np !! i = Some 2
       ∧ removeNodeById 4 0 "B" sampleStore
         = Some (true, <[p := with_children (delete i (children np)) np]> sampleStore))
  ∧ removeNodeById 4 0 "R" sampleStore = Some (false, sampleStore).
Proof.
  destruct (removeNodeById_absent sampleStore sampleTree 4 eq_refl (le_n 4))
    as (Habsent & Hfound & _ & Hown).
  split; [|split].
  - apply Habsent. reflexivity.
  - apply (Hfound "B" 2). reflexivity.
  - apply (Hown ltac:(vm_compute; reflexivity) (mkNode "R" None [1; 3] None)).
    reflexivity.
Defined.

(** C5 as stated fails on [twinStore]: after [addNode], looking up the
    identifier of the child returns the parent, which carries the same
    identifier and is examined first. *)
Lemma addNode_getNodeById_twin_fails :
  ∃ h', addNode 0 1 twinStore = Some (tt, h')
        ∧ internalId <$> h' !! 1 = Some "P"
        ∧ getNodeById 3 0 "P" h' = Some (Some 0, h')
        ∧ getNodeById 3 0 "P" h' ≠ Some (Some 1, h').
Proof.
  eexists. split; [vm_compute; reflexivity|]. split; [reflexivity|].
  split; [vm_compute; reflexivity|].
  intros Hget. apply (f_equal (fmap fst)) in Hget. vm_compute in Hget. discriminate.
Qed.

Lemma addNode_attaches_witness :
  (∃ h', addNode 0 4 detachedStore = Some (tt, h')
     ∧ parentId <$> h' !! 4 = Some (Some "R")
     ∧ children <$> h' !! 0 = Some [1; 3; 4]
     ∧ getNodeById 5 0 "D" h' = Some (Some 4, h'))
  ∧ (∃ h', addNode 0 1 twinStore = Some (tt, h')
       ∧ parentId <$> h' !! 1 = Some (Some "P")
       ∧ children <$> h' !! 0 = Some [1]
       ∧ getNodeById 2 0 "P" h' = Some (Some 0, h')).
Proof.
  split.
  - destruct (addNode_attaches detachedStore 0 4 (mkNode "R" None [1; 3] None)
                (leaf "D" None) eq_refl eq_refl)
      as (h' & Hrun & Hparent & _ & Hchildren & _ & Hget).
    exists h'. split; [done|]. split; [done|]. split; [done|].
    apply (Hget sampleTree 5); [vm_compute; reflexivity|reflexivity|simpl; lia|].
    intros y Hy. vm_compute in Hy. discriminate.
  - destruct (addNode_attaches twinStore 0 1 (leaf "P" None) (leaf "P" None)
                eq_refl eq_refl)
      as (h' & Hrun & Hparent & _ & Hchildren & Hget & _).
    exists h'. split; [done|]. split; [done|]. split; [done|].
    apply (Hget (RNode 0 []) 2); [vm_compute; reflexivity|reflexivity|simpl; lia].
Defined.



Lemma addNodeToNode_found_or_untouched_witness :
  (∃ np h', detachedStore !! 1 = Some np ∧ internalId np = "A"
     ∧ addNode 1 4 detachedStore = Some (tt, h')
     ∧ addNodeToNode 4 0 "A" 4 detachedStore = Some (true, h')
     ∧ parentId <$> h' !! 4 = Some (Some "A")
     ∧ children <$> h' !! 1 = Some (children np ++ [4]))
  ∧ addNodeToNode 4 0 "D" 4 detachedStore = Some (false, detachedStore).
Proof.
  split.
  - exact (addNodeToNode_found_or_untouched detachedStore sampleTree "A" 4
             (leaf "D" None) 4 eq_refl (le_n 4) eq_refl).
  - exact (addNodeToNode_found_or_untouched detachedStore sampleTree "D" 4
             (leaf "D" None) 4 eq_refl (le_n 4) eq_refl).
Defined.

Lemma runFunctionOnNode_once_witness :
  runFunctionOnNode 4 0 "B" tag 7 sampleStore
  = Some (true, <[2 := mkNode "B" (Some "A") [] (Some 7)]> sampleStore)
  ∧ runFunctionOnNode 4 0 "nonexistent" tag 7 sampleStore = Some (false, sampleStore)
  ∧ runFunctionOnNode 4 0 "nonexistent" (λ _ _, @fail _ unit) 7 sampleStore
    = Some (false, sampleStore).
Proof.
  split; [|split].
  - exact (runFunctionOnNode_once sampleStore sampleTree "B" tag 7 4
             eq_refl (le_n 4)).
  - exact (runFunctionOnNode_once sampleStore sampleTree "nonexistent" tag 7 4
             eq_refl (le_n 4)).
  - exact (runFunctionOnNode_once sampleStore sampleTree "nonexistent"
             (λ _ _, @fail _ unit) 7 4 eq_refl (le_n 4)).
Defined.

Lemma removeNodeById_keeps_parentId_witness :
  ∃ b h', removeNodeById 4 0 "A" sampleStore = Some (b, h')
    ∧ (∀ x, parentId <$> h' !! x = parentId <$> sampleStore !! x
            ∧ internalId <$> h' !! x = internalId <$> sampleStore !! x)
    ∧ (∀ q x me n, h' !! q = Some me → h' !! x = Some n →
         ∃ h'', addNode q x h' = Some (tt, h'')
                ∧ parentId <$> h'' !! x = Some (Some (internalId me))).
Proof.
  exact (removeNodeById_keeps_parentId sampleStore sampleTree "A" 4
           eq_refl (le_n 4)).
Defined.

Lemma lookups_readonly_witness :
  (∃ res, getNodeById 4 0 "B" sampleStore = Some (res, sampleStore))
  ∧ (∃ res, getParentNodeId 4 0 "B" sampleStore = Some (res, sampleStore))
  ∧ (∀ fuel' this res h',
       getNodeById fuel' this "B" sampleStore = Some (res, h') → h' = sampleStore)
  ∧ (∀ fuel' this res h',
       getParentNodeId fuel' this "B" sampleStore = Some (res, h') → h' = sampleStore).
Proof.
  exact (lookups_readonly sampleStore sampleTree "B" 4 eq_refl (le_n 4)).
Defined.

(** * Further properties of the methods *)

Section Lookups.

Context {T : Type}.
Implicit Types (h : heap T) (t : rtree) (r : ref).

Lemma firstResult_found {A} (body : ref → M (heap T) (option A)) cs h a h' :
  firstResult body cs h = Some (Some a, h') →
  (∀ c h1 res h2, body c h1 = Some (res, h2) → h2 = h1) →
  ∃ c, c ∈ cs ∧ body c h = Some (Some a, h).
Proof.
  intros Hrun Hro. revert Hrun. induction cs as [|c cs IH]; simpl; [done|].
  intros (res & h1 & Hc & Hk)%bind_inv. pose proof (Hro _ _ _ _ Hc) as ->.
  destruct res as [x|].
  - injection Hk as -> <-. exists c. split; [left | done].
  - destruct (IH Hk) as (c' & Hin & Hrun'). exists c'. split; [by right | done].
Qed.

Lemma getNodeById_sound fuel this targetId h x h' :
  getNodeById fuel this targetId h = Some (Some x, h') →
  hasId h targetId x = true ∧ reach h this x.
Proof.
  revert this h'. induction fuel as [|fuel IH]; intros this h'; [done|]. simpl.
  intros (me & h1 & [Hme ->]%getNode_inv & Hk)%bind_inv.
  destruct (String.eqb (internalId me) targetId) eqn:Heq.
  - injection Hk as <- <-. split; [by rewrite (hasId_Some _ _ _ _ Hme) | constructor].
  - apply firstResult_found in Hk as (c & Hin & Hc).
    + destruct (IH c h Hc) as [Hid Hreach]. split; [done|].
      by apply (reach_child h this me c).
    + intros c h1 res h2. apply getNodeById_readonly.
Qed.

(** X1.  On every store without a cycle below the receiver,
    [getNodeById(targetId)] returns the first object, in depth-first
    pre-order from the receiver, that carries [targetId].  It returns
    [null] exactly when no object reached from the receiver carries it. *)
Theorem getNodeById_first_match h t targetId fuel :
  unfolds h t = true → size t ≤ fuel →
  ∃ res, getNodeById fuel (root t) targetId h = Some (res, h)
    ∧ res = List.find (hasId h targetId) (preorder t)
    ∧ (res = None ↔ ∀ x, reach h (root t) x → hasId h targetId x = false)
    ∧ (∀ x, res = Some x → hasId h targetId x = true ∧ reach h (root t) x).
Proof.
  intros Hunf Hfuel. eexists. split; [by apply getNodeById_unfolds|].
  split; [done|]. split.
  - rewrite find_None_elem. split.
    + intros Hnone x Hx. apply Hnone. by apply (reach_preorder h).
    + intros Hnone x Hx. apply Hnone. by apply preorder_reach.
  - intros x [Hin Hid]%find_Some_elem. split; [done|]. by apply preorder_reach.
Qed.

(** X2.  On any store, with or without cycles: whenever
    [getNodeById(targetId)] returns an object, that object carries
    [targetId] and is reached from the receiver through children arrays,
    and the store is as it was. *)
Theorem getNodeById_returns_match fuel this targetId h x h' :
  getNodeById fuel this targetId h = Some (Some x, h') →
  hasId h targetId x = true ∧ reach h this x ∧ h' = h.
Proof.
  intros Hrun. destruct (getNodeById_sound _ _ _ _ _ _ Hrun) as [Hid Hreach].
  by apply getNodeById_readonly in Hrun.
Qed.

(** X3.  On every store without a cycle below the receiver,
    [getParentNodeId(targetId)] returns a string [p] exactly when the first
    object that carries [targetId] has the recorded parent [p] and [p] is
    not the empty string; in every other case (no object carries
    [targetId], the recorded parent is [null], or it is the empty string)
    it returns [null]. *)
Theorem getParentNodeId_first_match h t targetId fuel :
  unfolds h t = true → size t ≤ fuel →
  ∃ res, getParentNodeId fuel (root t) targetId h = Some (res, h)
    ∧ ∀ p, res = Some p ↔
        p ≠ "" ∧ ∃ x n, List.find (hasId h targetId) (preorder t) = Some x
                        ∧ h !! x = Some n ∧ parentId n = Some p.
Proof.
  intros Hunf Hfuel. unfold getParentNodeId.
  rewrite (bind_Some _ _ _ _ _ (getNodeById_unfolds h t targetId fuel Hunf Hfuel)).
  destruct (List.find (hasId h targetId) (preorder t)) as [x|] eqn:Hfind.
  - pose proof Hfind as [_ (n & Hn & _)%hasId_inv]%find_Some_elem.
    rewrite (bind_getNode _ _ _ _ Hn).
    destruct (parentId n) as [q|] eqn:Hq.
    + destruct q as [|a q].
      * exists None. split; [done|]. intros p. split; [done|].
        intros (Hne & x' & n' & [= <-] & Hn' & Hp). congruence.
      * exists (Some (String a q)). split; [done|]. intros p. split.
        -- intros [= <-]. split; [done|]. by exists x, n.
        -- intros (_ & x' & n' & [= <-] & Hn' & Hp). congruence.
    + exists None. split; [done|]. intros p. split; [done|].
      intros (_ & x' & n' & [= <-] & Hn' & Hp). congruence.
  - exists None. split; [done|]. intros p. split; [done|].
    by intros (_ & x' & n' & ? & _).
Qed.

Lemma fold_left_keepFirst h targetId l found :
  fold_left (λ acc node, keepFirst targetId acc node h) l found
  = match found with
    | Some x => Some x
    | None => List.find (hasId h targetId) l
    end.
Proof.
  revert found. induction l as [|a l IH]; intros found; [by destruct found|].
  simpl. rewrite IH. destruct found as [x|]; [done|]. simpl.
  by destruct (hasId h targetId a).
Qed.

(** X9.  On every store without a cycle below the receiver,
    [getNodeById(targetId)] gives the same answer as the traversal
    [traverse((found, node) => found ?? (node.internalId === targetId ? node
    : null), null)]. *)
Theorem getNodeById_as_traverse h t targetId fuel :
  unfolds h t = true → 2 * size t ≤ fuel →
  traverse fuel (root t) (observer (keepFirst targetId)) None h
  = getNodeById fuel (root t) targetId h.
Proof.
  intros Hunf Hfuel.
  rewrite traverse_unfolds; [|apply observer_keepsChildren|done..].
  rewrite foldM_observer, fold_left_keepFirst.
  rewrite getNodeById_unfolds; [done..|lia].
Qed.

End Lookups.

Lemma getNodeById_first_match_witness :
  ∃ res, getNodeById 4 0 "B" sampleStore = Some (res, sampleStore)
    ∧ res = Some 2
    ∧ (res = None ↔ ∀ x, reach sampleStore 0 x → hasId sampleStore "B" x = false)
    ∧ (∀ x, res = Some x → hasId sampleStore "B" x = true ∧ reach sampleStore 0 x).
Proof.
  exact (getNodeById_first_match sampleStore sampleTree "B" 4 eq_refl (le_n 4)).
Defined.

Lemma getNodeById_returns_match_witness :
  hasId loopStore "A" 1 = true ∧ reach loopStore 0 1 ∧ loopStore = loopStore.
Proof.
  apply (getNodeById_returns_match 2 0 "A" loopStore 1 loopStore).
  vm_compute. reflexivity.
Defined.

Lemma getParentNodeId_first_match_witness :
  ∃ res, getParentNodeId 4 0 "B" sampleStore = Some (res, sampleStore)
    ∧ ∀ p, res = Some p ↔
        p ≠ "" ∧ ∃ x n, List.find (hasId sampleStore "B") (preorder sampleTree) = Some x
                        ∧ sampleStore !! x = Some n ∧ parentId n = Some p.
Proof.
  exact (getParentNodeId_first_match sampleStore sampleTree "B" 4 eq_refl (le_n 4)).
Defined.

Lemma getNodeById_as_traverse_witness :
  traverse 8 0 (observer (keepFirst "C")) None sampleStore
  = getNodeById 8 0 "C" sampleStore.
Proof.
  apply (getNodeById_as_traverse sampleStore sampleTree "C" 8);
    [reflexivity | simpl; lia].
Defined.

Section Removal.

Context {T : Type}.
Implicit Types (h : heap T) (t : rtree) (r : ref).

Lemma reach_trans h a b c : reach h a b → reach h b c → reach h a c.
Proof.
  induction 1 as [|r n x y Hr Hin _ IH]; [done|].
  intros Hc. apply (reach_child h r n x); auto.
Qed.

Lemma removeFrom_any fuel this targetId i h b h' :
  removeFrom fuel this targetId i h = Some (b, h') →
  if b then
    ∃ p np j c, reach h this p ∧ h !! p = Some np ∧ children np !! j = Some c
      ∧ hasId h targetId c = true
      ∧ h' = <[p := with_children (delete j (children np)) np]> h
  else h' = h.
Proof.
  revert this i h b h'.
  induction fuel as [|fuel IH]; intros this i h b h'; [done|].
  simpl. intros (me & h1 & [Hme ->]%getNode_inv & Hk)%bind_inv.
  destruct (bool_decide (i < length (children me))); [|by injection Hk as <- <-].
  destruct (children me !! i) as [child|] eqn:Hi; [|done].
  apply bind_inv in Hk as (child' & h1 & [= <- <-] & Hk).
  apply bind_inv in Hk as (c & h1 & [Hc ->]%getNode_inv & Hk).
  destruct (String.eqb (internalId c) targetId) eqn:Heq.
  - injection Hk as <- <-. exists this, me, i, child.
    split; [constructor|]. split; [done|]. split; [done|].
    split; [by rewrite (hasId_Some _ _ _ _ Hc) | done].
  - apply bind_inv in Hk as (removed & h1 & Hrec & Hk).
    pose proof (IH _ _ _ _ _ Hrec) as Hchild. destruct removed.
    + injection Hk as <- <-.
      destruct Hchild as (p & np & j & x & Hreach & Hp & Hj & Hid & ->).
      exists p, np, j, x. split; [|done].
      apply (reach_child h this me child); [done| |done].
      by apply (list_elem_of_lookup_2 _ i).
    + subst h1. by apply (IH _ _ _ _ _ Hk).
Qed.

(** X5.  On any store, with or without cycles: when [removeNodeById]
    returns [false] the store is as it was; when it returns [true] the
    store differs from the old one in one children array only, that of an
    object reached from the receiver, and this array has lost one element,
    which carried [targetId]. *)
Theorem removeNodeById_one_splice fuel this targetId h b h' :
  removeNodeById fuel this targetId h = Some (b, h') →
  (b = false → h' = h)
  ∧ (b = true →
     ∃ p np j c, reach h this p ∧ h !! p = Some np ∧ children np !! j = Some c
       ∧ hasId h targetId c = true
       ∧ h' = <[p := with_children (delete j (children np)) np]> h).
Proof.
  intros Hrun%removeFrom_any. destruct b; split; try done; by intros _.
Qed.

(** Skipping children that hold no match: each round of the loop uses one
    unit of fuel. *)
Lemma removeFrom_skip targetId h r n todo more f :
  h !! r = Some n →
  Forall (λ c, unfolds h c = true ∧ size c ≤ f
               ∧ hasId h targetId (root c) = false
               ∧ cutTree (hasId h targetId) c = None) todo →
  ∀ seen, children n = map root (seen ++ todo) ++ more →
  removeFrom (length todo + f) r targetId (length seen) h
  = removeFrom f r targetId (length seen + length todo) h.
Proof.
  intros Hr Htodo. induction Htodo as [|c rest (Hunf & Hsize & Hid & Hcut) _ IH];
    intros seen Hc.
  - simpl. by rewrite Nat.add_0_r.
  - cbn [length Nat.add removeFrom]. rewrite (bind_getNode _ _ _ _ Hr).
    rewrite bool_decide_eq_true_2
      by (rewrite Hc, length_app, length_map, length_app; simpl; lia).
    assert (children n !! length seen = Some (root c)) as Hi.
    { rewrite Hc, map_app, <- app_assoc. simpl.
      apply list_lookup_middle. by rewrite length_map. }
    rewrite (bind_lift _ _ _ _ Hi).
    destruct c as [rc ccs]. pose proof Hunf as (nc & Hrc & _)%unfolds_RNode.
    cbn [root] in *. rewrite (bind_getNode _ _ _ _ Hrc).
    rewrite (hasId_Some _ _ _ _ Hrc) in Hid. rewrite Hid.
    pose proof (removeNodeById_unfolds h (RNode rc ccs) targetId
                  (length rest + f) Hunf ltac:(lia)) as Hrun.
    rewrite Hcut in Hrun. unfold removeNodeById in Hrun. cbn [root outcome] in Hrun.
    rewrite (bind_Some _ _ _ _ _ Hrun).
    specialize (IH (seen ++ [RNode rc ccs])).
    rewrite length_app, Nat.add_1_r, <- app_assoc in IH.
    rewrite IH by done. f_equal. lia.
Qed.

Lemma forest_size_length cs : length cs ≤ forest_size cs.
Proof.
  induction cs as [|c cs IH]; [done|]. rewrite forest_size_cons.
  pose proof (size_pos c). simpl. lia.
Qed.

Lemma size_in_forest c cs : In c cs → size c + length cs ≤ forest_size cs + 1.
Proof.
  intros (l1 & l2 & ->)%in_split.
  rewrite length_app, forest_size_app, forest_size_cons. simpl.
  pose proof (forest_size_length l1). pose proof (forest_size_length l2). lia.
Qed.

Lemma cutTree_None_find h (m : ref → bool) t :
  unfolds h t = true → List.find m (descendants t) = None → cutTree m t = None.
Proof.
  intros Hunf Hnone. pose proof (cutTree_spec h m t Hunf) as Hcut.
  destruct (cutTree m t) as [[[[p i] x] t']|]; [|done].
  destruct Hcut as [Hsome _]. unfold descendants in Hnone. congruence.
Qed.

Lemma with_children_back (n : Node T) cs p :
  with_children (children n) (with_children cs (with_parentId p n))
  = with_parentId p n.
Proof. by destruct n. Qed.

Lemma with_children_same (n : Node T) cs :
  with_children (children n) (with_children cs n) = n.
Proof. by destruct n. Qed.

(** X6.  Attaching and removing again.  Let the receiver be the root of a
    tree and let no object below it carry the identifier of [child].  Then
    [this.addNode(child)] followed by [this.removeNodeById(child.internalId)]
    returns [true] and gives back the store from before the two calls,
    except for one field: [child.parentId] still holds the identifier of
    the receiver. *)
Theorem addNode_removeNodeById_undo h t child n fuel :
  tree h t = true → h !! child = Some n →
  List.find (hasId h (internalId n)) (descendants t) = None →
  size t < fuel →
  ∃ me h1, h !! root t = Some me
    ∧ addNode (root t) child h = Some (tt, h1)
    ∧ removeNodeById fuel (root t) (internalId n) h1
      = Some (true, <[child := with_parentId (Some (internalId me)) n]> h).
Proof.
  intros Htree Hchild Hnone Hfuel.
  pose proof (tree_NoDup _ _ Htree) as Hnodup.
  apply tree_unfolds in Htree. destruct t as [r cs].
  apply unfolds_RNode in Htree as (me & Hr & Hc & Hf).
  cbn [root] in *. rewrite size_RNode in Hfuel.
  unfold descendants in Hnone. cbn [subtrees] in Hnone.
  simpl in Hnodup. apply list.NoDup_cons in Hnodup as [Hnotin _].
  exists me, (attached r child me n h).
  split; [done|]. split; [by apply addNode_run|].
  pose proof (attached_internalId h r child me n child Hr Hchild) as Hidc.
  pose proof (attached_children h r child me n Hr Hchild) as Hcs.
  rewrite Hchild in Hidc. simpl in Hidc.
  assert (∀ x, hasId (attached r child me n h) (internalId n) x
               = hasId h (internalId n) x) as Hids.
  { intros x. apply hasId_agree. by apply attached_internalId. }
  set (h1 := attached r child me n h) in *.
  destruct (h1 !! r) as [me1|] eqn:Hr1; [|done].
  simpl in Hcs. injection Hcs as Hcs.
  destruct (h1 !! child) as [n1|] eqn:Hchild1; [|done].
  simpl in Hidc. injection Hidc as Hidc.
  (* the fuel: one unit for each child, and enough for every subtree *)
  assert (∃ f, fuel = length cs + S f ∧ ∀ c, In c cs → size c ≤ S f)
    as (f & -> & Hsizes).
  { exists (fuel - length cs - 1). pose proof (forest_size_length cs).
    split; [lia|]. intros c Hin%size_in_forest. lia. }
  unfold removeNodeById. change 0 with (length (@nil rtree)).
  rewrite (removeFrom_skip (internalId n) h1 r me1 cs [child] (S f) Hr1);
    [| |by rewrite Hcs, Hc].
  - cbn [length Nat.add removeFrom]. rewrite (bind_getNode _ _ _ _ Hr1).
    rewrite bool_decide_eq_true_2
      by (rewrite Hcs, Hc, length_app, length_map; simpl; lia).
    assert (children me1 !! length cs = Some child) as Hi.
    { rewrite Hcs, Hc. apply list_lookup_middle. by rewrite length_map. }
    rewrite (bind_lift _ _ _ _ Hi), (bind_getNode _ _ _ _ Hchild1).
    rewrite Hidc, String.eqb_refl. unfold bind, setNode, ret. do 2 f_equal.
    assert (delete (length cs) (children me1) = children me) as ->.
    { rewrite Hcs, Hc. rewrite <- (length_map root cs), (delete_middle _ []).
      by rewrite app_nil_r. }
    subst h1. unfold attached in *.
    destruct (decide (r = child)) as [->|Hne].
    + rewrite lookup_insert_eq in Hr1 |- *. rewrite Hr in Hchild.
      injection Hchild as <-. rewrite lookup_insert_eq in Hr1.
      injection Hr1 as <-. rewrite !insert_insert_eq.
      by rewrite with_children_back.
    + rewrite lookup_insert_ne in Hr1 |- * by done. rewrite Hr in Hr1 |- *.
      rewrite lookup_insert_eq in Hr1. injection Hr1 as <-.
      rewrite insert_insert_eq, with_children_same.
      apply insert_id. by rewrite lookup_insert_ne.
  - apply List.Forall_forall. intros c Hin.
    assert (unfolds h1 c = true) as Hunfc.
    { apply (unfolds_agree h); [|by apply (proj1 (List.Forall_forall _ _) Hf)].
      intros x Hx. apply attached_children_ne; [done..|].
      intros ->. apply Hnotin, elem_of_flat_map. exists c. split; [|done].
      by apply list_elem_of_In. }
    assert (∀ x, x ∈ preorder c → hasId h1 (internalId n) x = false) as Hfalse.
    { intros x Hx. rewrite Hids.
      apply (proj1 (find_None_elem _ _) Hnone), elem_of_flat_map.
      exists c. split; [by apply list_elem_of_In | done]. }
    split; [done|]. split; [by apply Hsizes|].
    split; [apply Hfalse, root_in_preorder|].
    apply (cutTree_None_find h1); [done|]. apply find_None_elem.
    intros x Hx. apply Hfalse. destruct c. simpl. by right.
Qed.

End Removal.

Lemma removeNodeById_one_splice_witness :
  (true = false → <[0 := mkNode "R" None [0] None]> loopStore = loopStore)
  ∧ (true = true →
     ∃ p np j c, reach loopStore 0 p ∧ loopStore !! p = Some np
       ∧ children np !! j = Some c ∧ hasId loopStore "A" c = true
       ∧ <[0 := mkNode "R" None [0] None]> loopStore
         = <[p := with_children (delete j (children np)) np]> loopStore).
Proof.
  apply (removeNodeById_one_splice 1 0 "A" loopStore true).
  vm_compute. reflexivity.
Defined.

Lemma addNode_removeNodeById_undo_witness :
  ∃ me h1, detachedStore !! 0 = Some me
    ∧ addNode 0 4 detachedStore = Some (tt, h1)
    ∧ removeNodeById 5 0 "D" h1
      = Some (true, <[4 := with_parentId (Some (internalId me)) (leaf "D" None)]>
                      detachedStore).
Proof.
  apply (addNode_removeNodeById_undo detachedStore sampleTree 4 (leaf "D" None) 5).
  - vm_compute. reflexivity.
  - reflexivity.
  - reflexivity.
  - simpl. lia.
Defined.

Section Cycles.

Context {T : Type}.
Implicit Types (h : heap T) (t : rtree) (r : ref).

Lemma onCycle_step h r c :
  onCycle h r → reach h c r → reach h r c → onCycle h c.
Proof.
  intros Hcycle Hcr Hrc. destruct Hcr as [c|c n d r Hc Hd Hdr]; [done|].
  apply list_elem_of_lookup in Hd as [j Hj]. exists n, j, d.
  split; [done|]. split; [done|]. by apply (reach_trans h d r c).
Qed.

Lemma onCycle_child h r n j c :
  h !! r = Some n → children n !! j = Some c → reach h c r → onCycle h c.
Proof.
  intros Hr Hj Hcr. apply (onCycle_step h r c); [by exists n, j, c|done|].
  apply (reach_child h r n c); [done| |constructor].
  by apply (list_elem_of_lookup_2 _ j).
Qed.

Lemma firstResult_None {A} (body : ref → M (heap T) (option A)) cs j c h :
  cs !! j = Some c → body c h = None →
  (∀ d res h', body d h = Some (res, h') → res = None ∧ h' = h) →
  firstResult body cs h = None.
Proof.
  intros Hj Hc Hbody. revert j Hj.
  induction cs as [|d cs IH]; intros j Hj; [done|]. simpl. unfold bind.
  destruct j as [|j]; [injection Hj as ->; by rewrite Hc|].
  destruct (body d h) as [[res h']|] eqn:Hd; [|done].
  destruct (Hbody d res h' Hd) as [-> ->]. by apply (IH j).
Qed.

Lemma getNodeById_cycle h targetId fuel r :
  (∀ x, hasId h targetId x = false) → onCycle h r →
  getNodeById fuel r targetId h = None.
Proof.
  intros Habsent. revert r. induction fuel as [|fuel IH]; intros r Hcycle; [done|].
  pose proof Hcycle as (n & j & c & Hr & Hj & Hcr).
  cbn [getNodeById]. rewrite (bind_getNode _ _ _ _ Hr).
  pose proof (Habsent r) as Hid. rewrite (hasId_Some _ _ _ _ Hr) in Hid.
  rewrite Hid. apply (firstResult_None _ _ j c); [done| |].
  - apply IH. by apply (onCycle_child h r n j).
  - intros d res h' Hd. split; [|by apply getNodeById_readonly in Hd].
    destruct res as [x|]; [|done].
    apply getNodeById_sound in Hd as [Hx _]. by rewrite Habsent in Hx.
Qed.

Lemma removeFrom_cycle h targetId fuel :
  (∀ x, hasId h targetId x = false) →
  ∀ r n j c i, h !! r = Some n → children n !! j = Some c → reach h c r → i ≤ j →
  removeFrom fuel r targetId i h = None.
Proof.
  intros Habsent. induction fuel as [|fuel IH]; intros r n j c i Hr Hj Hcr Hi; [done|].
  cbn [removeFrom]. rewrite (bind_getNode _ _ _ _ Hr).
  pose proof (lookup_lt_Some _ _ _ Hj) as Hlen.
  rewrite bool_decide_eq_true_2 by lia.
  destruct (children n !! i) as [d|] eqn:Hd; [|by apply bind_None].
  rewrite (bind_lift _ _ _ _ eq_refl).
  destruct (h !! d) as [nd|] eqn:Hnd;
    [|apply bind_None; unfold getNode; by rewrite Hnd].
  rewrite (bind_getNode _ _ _ _ Hnd).
  pose proof (Habsent d) as Hid. rewrite (hasId_Some _ _ _ _ Hnd) in Hid.
  rewrite Hid. unfold bind.
  destruct (removeFrom fuel d targetId 0 h) as [[b h1]|] eqn:Hrec; [|done].
  pose proof (removeFrom_any _ _ _ _ _ _ _ Hrec) as Hany. destruct b.
  - destruct Hany as (p & np & k & x & _ & _ & _ & Hx & _).
    by rewrite Habsent in Hx.
  - subst h1.
    destruct (decide (i = j)) as [->|Hne].
    + rewrite Hj in Hd. injection Hd as <-.
      destruct (onCycle_child h r n j c Hr Hj Hcr) as (nc & k & e & Hc & Hk & Hec).
      rewrite (IH c nc k e 0 Hc Hk Hec) in Hrec; [done|lia].
    + apply (IH r n j c); [done..|lia].
Qed.

Lemma traverse_observer_readonly {R} (f : R → ref → heap T → R) fuel :
  (∀ r acc h a h', traverse fuel r (observer f) acc h = Some (a, h') → h' = h)
  ∧ (∀ r acc i h a h',
       traverseFrom fuel r (observer f) acc i h = Some (a, h') → h' = h).
Proof.
  induction fuel as [|fuel [IHt IHf]]; [done|]. split.
  - intros r acc h a h'. cbn [traverse]. unfold bind at 1, observer at 1.
    apply IHf.
  - intros r acc i h a h'. cbn [traverseFrom].
    intros (me & h1 & [_ ->]%getNode_inv & Hk)%bind_inv.
    destruct (bool_decide (i < length (children me))); [|by injection Hk as _ <-].
    apply bind_inv in Hk as (child & h1 & Hlift & Hk).
    unfold lift in Hlift. destruct (children me !! i); [|done].
    injection Hlift as <- <-.
    apply bind_inv in Hk as (a1 & h1 & ->%IHt & Hk). by apply IHf in Hk.
Qed.

Lemma traverse_cycle {R} (f : R → ref → heap T → R) h fuel :
  (∀ r acc, onCycle h r → traverse fuel r (observer f) acc h = None)
  ∧ (∀ r n j c i acc, h !! r = Some n → children n !! j = Some c → reach h c r →
       i ≤ j → traverseFrom fuel r (observer f) acc i h = None).
Proof.
  induction fuel as [|fuel [IHt IHf]]; [done|]. split.
  - intros r acc (n & j & c & Hr & Hj & Hcr). cbn [traverse].
    unfold bind at 1, observer at 1. apply (IHf r n j c); [done..|lia].
  - intros r n j c i acc Hr Hj Hcr Hi. cbn [traverseFrom].
    rewrite (bind_getNode _ _ _ _ Hr).
    pose proof (lookup_lt_Some _ _ _ Hj) as Hlen.
    rewrite bool_decide_eq_true_2 by lia.
    destruct (children n !! i) as [d|] eqn:Hd; [|by apply bind_None].
    rewrite (bind_lift _ _ _ _ eq_refl). unfold bind.
    destruct (traverse fuel d (observer f) acc h) as [[a h1]|] eqn:Hrec; [|done].
    pose proof (proj1 (traverse_observer_readonly f fuel) _ _ _ _ _ Hrec) as ->.
    destruct (decide (i = j)) as [->|Hne].
    + rewrite Hj in Hd. injection Hd as <-.
      rewrite (IHt c acc) in Hrec; [done|]. by apply (onCycle_child h r n j).
    + apply (IHf r n j c); [done..|lia].
Qed.

Lemma cycle_never_returns_aux h r :
  onCycle h r →
  ∀ fuel,
    (∀ R (f : R → ref → heap T → R) (initialValue : R),
       traverse fuel r (observer f) initialValue h = None)
    ∧ (∀ targetId, (∀ x, hasId h targetId x = false) →
         getNodeById fuel r targetId h = None
         ∧ removeNodeById fuel r targetId h = None).
Proof.
  intros Hcycle fuel. split.
  - intros R f initialValue. by apply traverse_cycle.
  - intros targetId Habsent. split; [by apply getNodeById_cycle|].
    destruct Hcycle as (n & j & c & Hr & Hj & Hcr).
    apply (removeFrom_cycle h targetId fuel Habsent r n j c); [done..|lia].
Qed.

(** X4.  When the receiver lies on a cycle of the store, no traversal from
    it returns, whatever the reducer computes, and neither does a lookup or
    a removal by an identifier that no object carries: the recursion goes
    round the cycle for ever. *)
Theorem cycle_never_returns h r :
  onCycle h r →
  ∀ fuel,
    (∀ R (f : R → ref → heap T → R) (initialValue : R),
       traverse fuel r (observer f) initialValue h = None)
    ∧ (∀ targetId, (∀ x, hasId h targetId x = false) →
         getNodeById fuel r targetId h = None
         ∧ removeNodeById fuel r targetId h = None).
Proof. apply cycle_never_returns_aux. Qed.

Lemma reach_attached h this node me n a b :
  h !! this = Some me → h !! node = Some n →
  reach h a b → reach (attached this node me n h) a b.
Proof.
  intros Hthis Hnode. induction 1 as [|r nr c x Hr Hin _ IH]; [constructor|].
  destruct (decide (r = this)) as [->|Hne].
  - pose proof (attached_children h this node me n Hthis Hnode) as Hcs.
    destruct (attached this node me n h !! this) as [me1|] eqn:Hme1; [|done].
    injection Hcs as Hcs. apply (reach_child _ this me1 c); [done| |done].
    rewrite Hcs. rewrite Hr in Hthis. injection Hthis as ->.
    apply elem_of_app. by left.
  - pose proof (attached_children_ne h this node me n r Hthis Hnode Hne) as Hcs.
    rewrite Hr in Hcs.
    destruct (attached this node me n h !! r) as [nr1|] eqn:Hnr1; [|done].
    injection Hcs as Hcs. apply (reach_child _ r nr1 c); [done| |done].
    by rewrite Hcs.
Qed.

(** X7.  [addNode] makes no check on what it attaches.  When the receiver
    is reached from [node] (so when [node] is the receiver itself or one of
    its ancestors), [this.addNode(node)] succeeds and leaves the receiver
    on a cycle; after it, no traversal from the receiver returns, and no
    lookup or removal by an identifier that no object carries. *)
Theorem addNode_ancestor_cycle h this node me n :
  h !! this = Some me → h !! node = Some n → reach h node this →
  ∃ h', addNode this node h = Some (tt, h')
    ∧ onCycle h' this
    ∧ ∀ fuel,
        (∀ R (f : R → ref → heap T → R) (initialValue : R),
           traverse fuel this (observer f) initialValue h' = None)
        ∧ (∀ targetId, (∀ x, hasId h targetId x = false) →
             getNodeById fuel this targetId h' = None
             ∧ removeNodeById fuel this targetId h' = None).
Proof.
  intros Hthis Hnode Hreach. exists (attached this node me n h).
  split; [by apply addNode_run|].
  assert (onCycle (attached this node me n h) this) as Hcycle.
  { pose proof (attached_children h this node me n Hthis Hnode) as Hcs.
    destruct (attached this node me n h !! this) as [me1|] eqn:Hme1; [|done].
    injection Hcs as Hcs. exists me1, (length (children me)), node.
    split; [done|]. split; [by rewrite Hcs, list_lookup_middle|].
    by apply reach_attached. }
  split; [done|]. intros fuel.
  destruct (cycle_never_returns_aux _ _ Hcycle fuel) as [Htraverse Hlookup].
  split; [done|]. intros targetId Habsent. apply Hlookup. intros x.
  rewrite (hasId_agree h); [done|]. by apply attached_internalId.
Qed.

End Cycles.

Lemma cycle_never_returns_witness :
  (∀ R (f : R → ref → heap nat → R) (initialValue : R),
     traverse 100 0 (observer f) initialValue loopStore = None)
  ∧ (∀ targetId, (∀ x, hasId loopStore targetId x = false) →
       getNodeById 100 0 targetId loopStore = None
       ∧ removeNodeById 100 0 targetId loopStore = None).
Proof.
  apply (cycle_never_returns loopStore 0).
  exists (mkNode "R" None [1; 0] None), 1, 0.
  split; [reflexivity|]. split; [reflexivity|]. constructor.
Defined.

Lemma addNode_ancestor_cycle_witness :
  ∃ h', addNode 2 0 sampleStore = Some (tt, h')
    ∧ onCycle h' 2
    ∧ ∀ fuel,
        (∀ R (f : R → ref → heap nat → R) (initialValue : R),
           traverse fuel 2 (observer f) initialValue h' = None)
        ∧ (∀ targetId, (∀ x, hasId sampleStore targetId x = false) →
             getNodeById fuel 2 targetId h' = None
             ∧ removeNodeById fuel 2 targetId h' = None).
Proof.
  apply (addNode_ancestor_cycle sampleStore 2 0 (leaf "B" (Some "A"))
           (mkNode "R" None [1; 3] None)); [reflexivity | reflexivity |].
  apply (reach_child sampleStore 0 (mkNode "R" None [1; 3] None) 1);
    [reflexivity | left |].
  apply (reach_child sampleStore 1 (mkNode "A" (Some "R") [2] None) 2);
    [reflexivity | left | constructor].
Defined.

(** ** Identifiers and the constructor *)

Lemma replace_xy_total {S} (callback : ascii → M S string) tpl s :
  (∀ c s, ∃ piece s', callback c s = Some (piece, s')) →
  ∃ id s', replace_xy callback tpl s = Some (id, s').
Proof.
  intros Htotal. revert s. induction tpl as [|c tpl IH]; intros s.
  - by exists "", s.
  - cbn [replace_xy]. destruct (Ascii.eqb c "x" || Ascii.eqb c "y")%bool.
    + destruct (Htotal c s) as (piece & s1 & Hpiece).
      destruct (IH s1) as (rest & s2 & Hrest).
      rewrite (bind_Some _ _ _ _ _ Hpiece), (bind_Some _ _ _ _ _ Hrest).
      by eexists _, _.
    + destruct (IH s) as (rest & s2 & Hrest).
      rewrite (bind_Some _ _ _ _ _ Hrest). by eexists _, _.
Qed.

Lemma replace_xy_draws (callback : ascii → M random_source string) tpl src id src' :
  (∀ c s piece s', callback c s = Some (piece, s') → s' = shift 1 s) →
  replace_xy callback tpl src = Some (id, src') →
  src' = shift (draws tpl) src.
Proof.
  intros Hone. revert src id src'.
  induction tpl as [|c tpl IH]; intros src id src'.
  - by intros [= _ <-].
  - cbn [replace_xy draws]. destruct (Ascii.eqb c "x" || Ascii.eqb c "y")%bool.
    + intros (piece & s1 & Hpiece & Hk)%bind_inv.
      apply bind_inv in Hk as (rest & s2 & Hrest & [= _ <-]).
      apply Hone in Hpiece as ->. by apply IH in Hrest as ->.
    + intros (rest & s2 & Hrest & [= _ <-])%bind_inv. by apply IH in Hrest.
Qed.

Lemma replacer_one_draw c s piece s' :
  replacer c s = Some (piece, s') → s' = shift 1 s.
Proof. by intros [= _ <-]. Qed.

Lemma Lib_replacer_one_draw c s piece s' :
  Lib.replacer c s = Some (piece, s') → s' = shift 1 s.
Proof. by intros [= _ <-]. Qed.

Lemma generateUniqueID_total src :
  ∃ id, generateUniqueID src = Some (id, shift 31 src).
Proof.
  destruct (replace_xy_total replacer template src) as (id & src' & Hrun).
  { intros c s. unfold replacer, bind, Math_random, ret. by eexists _, _. }
  exists id. unfold generateUniqueID. rewrite Hrun.
  by apply (replace_xy_draws _ _ _ _ _ replacer_one_draw) in Hrun as ->.
Qed.

Lemma matches_length pattern s :
  matches pattern s = true → String.length s = String.length pattern.
Proof.
  revert s. induction pattern as [|p pattern IH]; intros [|c s]; try done.
  simpl. intros [_ Hrest]%andb_prop. f_equal. by apply IH.
Qed.

Lemma in_range_shift k src : in_range src → in_range (shift k src).
Proof. intros Hsrc i. apply Hsrc. Qed.

Lemma replacer_run c src :
  in_range src →
  replacer c src
  = Some (if Ascii.eqb c "x" then String (hexDigit (Qfloor (src 0 * 16))) ""
          else if (Qfloor (src 0%nat * 16) =? 0)%Z then "8" else "3",
          shift 1 src).
Proof.
  intros Hsrc. destruct (Hsrc 0) as [Hlo Hhi].
  pose proof (draw_range _ Hlo Hhi) as Hr.
  unfold replacer, bind, Math_random, ret. do 2 f_equal.
  destruct (Ascii.eqb c "x").
  - by apply toString16_nibble.
  - by apply variant_digit_logical.
Qed.

Lemma replace_xy_logical tpl pattern src :
  agrees tpl pattern = true → in_range src →
  ∃ id, replace_xy replacer tpl src = Some (id, shift (draws tpl) src)
        ∧ matches pattern id = yZero tpl src
        ∧ matches (loosen pattern) id = true.
Proof.
  revert pattern src.
  induction tpl as [|c tpl IH]; intros [|p pattern] src Hagree Hsrc; try done.
  - by exists "".
  - simpl in Hagree. apply andb_prop in Hagree as [Hhead Htail].
    destruct (Hsrc 0) as [Hlo Hhi].
    pose proof (draw_range _ Hlo Hhi) as Hr.
    destruct (toString16_nibble _ Hr) as [_ Hhex].
    destruct (IH pattern _ Htail (in_range_shift 1 _ Hsrc)) as (id1 & Hrun1 & Hm1 & Hl1).
    destruct (IH pattern _ Htail Hsrc) as (id0 & Hrun0 & Hm0 & Hl0).
    cbn [replace_xy draws yZero loosen]. destruct (Ascii.eqb c "x") eqn:Hx.
    + apply Ascii.eqb_eq in Hhead as ->. cbn [orb].
      rewrite (bind_Some _ _ _ _ _ (replacer_run c src Hsrc)).
      rewrite (bind_Some _ _ _ _ _ Hrun1), Hx.
      eexists. split; [reflexivity|].
      change (isHex (hexDigit (Qfloor (src 0 * 16))) && matches pattern id1
              = yZero tpl (shift 1 src)
              ∧ isHex (hexDigit (Qfloor (src 0 * 16)))
                && matches (loosen pattern) id1 = true).
      by rewrite Hhex, Hm1, Hl1.
    + destruct (Ascii.eqb c "y") eqn:Hy.
      * apply Ascii.eqb_eq in Hhead as ->. cbn [orb].
        rewrite (bind_Some _ _ _ _ _ (replacer_run c src Hsrc)).
        rewrite (bind_Some _ _ _ _ _ Hrun1), Hx.
        eexists. split; [reflexivity|].
        destruct (Qfloor (src 0%nat * 16) =? 0)%Z.
        -- change (isVariant "8" && matches pattern id1
                   = true && yZero tpl (shift 1 src)
                   ∧ isHex "8" && matches (loosen pattern) id1 = true).
           by rewrite Hm1, Hl1.
        -- change (isVariant "3" && matches pattern id1
                   = false && yZero tpl (shift 1 src)
                   ∧ isHex "3" && matches (loosen pattern) id1 = true).
           by rewrite Hl1.
      * apply andb_prop in Hhead as [[->%Ascii.eqb_eq Hh%negb_true_iff]%andb_prop
                                      Hv%negb_true_iff].
        cbn [orb]. rewrite (bind_Some _ _ _ _ _ Hrun0).
        eexists. split; [reflexivity|]. cbn [matches].
        rewrite !Hv. cbv iota. by rewrite !Hh, !Ascii.eqb_refl, Hm0, Hl0.
Qed.

Lemma floor_zero (u : Q) :
  (0 <= u)%Q → (u < 1)%Q →
  (Qfloor (u * 16) =? 0)%Z = true ↔ (u < 1 # 16)%Q.
Proof.
  intros Hlo Hhi. rewrite Z.eqb_eq. split.
  - intros Hz. pose proof (Qlt_floor (u * 16)) as Hlt. rewrite Hz in Hlt.
    change (u * 16 < 1)%Q in Hlt. lra.
  - intros Hu. pose proof (Qfloor_le (u * 16)) as Hle.
    assert (0 <= Qfloor (u * 16))%Z.
    { change 0%Z with (Qfloor 0). apply Qfloor_resp_le. lra. }
    assert (Qfloor (u * 16) < 1)%Z; [|lia].
    rewrite Zlt_Qlt. change (inject_Z 1) with 1%Q. lra.
Qed.

(** X12.  For every outcome of the random draws, [generateUniqueID] of
    [src/index.ts] takes 31 draws and returns 36 characters in the layout
    of groups of 8, 4, 4, 4 and 12 hexadecimal digits separated by hyphens,
    with the digit 4 at the head of the third group.  The identifier has
    the full version-4 layout, variant digit included, exactly when the
    sixteenth draw is below 1/16. *)
Theorem generateUniqueID_layout src :
  in_range src →
  ∃ id, generateUniqueID src = Some (id, shift 31 src)
        ∧ String.length id = 36
        ∧ matches "hhhhhhhh-hhhh-4hhh-hhhh-hhhhhhhhhhhh" id = true
        ∧ (uuid_v4_layout id = true ↔ (src 15%nat < 1 # 16)%Q).
Proof.
  intros Hsrc.
  destruct (replace_xy_logical template "hhhhhhhh-hhhh-4hhh-vhhh-hhhhhhhhhhhh"
              src eq_refl Hsrc) as (id & Hrun & Hm & Hl).
  exists id. split; [exact Hrun|]. split; [by apply matches_length in Hl|].
  split; [exact Hl|]. unfold uuid_v4_layout. rewrite Hm.
  destruct (Hsrc 15) as [Hlo Hhi]. rewrite <- (floor_zero _ Hlo Hhi).
  change (yZero template src) with ((Qfloor (src 15%nat * 16) =? 0)%Z && true).
  by rewrite andb_true_r.
Qed.

(** X13.  For every outcome of the random draws, [generateUniqueID] of the
    compiled [lib/index.js] takes 31 draws and returns an identifier of 36
    characters in the version-4 layout, variant digit included. *)
Theorem Lib_generateUniqueID_uuid_v4 src :
  in_range src →
  ∃ id, Lib.generateUniqueID src = Some (id, shift 31 src)
        ∧ String.length id = 36
        ∧ uuid_v4_layout id = true.
Proof.
  intros Hsrc.
  destruct (replace_xy_layout template "hhhhhhhh-hhhh-4hhh-vhhh-hhhhhhhhhhhh"
              src eq_refl Hsrc) as (id & src' & Hrun & Hm).
  exists id. unfold Lib.generateUniqueID. rewrite Hrun.
  apply (replace_xy_draws _ _ _ _ _ Lib_replacer_one_draw) in Hrun as ->.
  split; [done|]. split; [by apply matches_length in Hm | done].
Qed.

Lemma in_range_halves : in_range halves.
Proof. intros i. split; [discriminate | reflexivity]. Qed.

Lemma generateUniqueID_layout_witness :
  ∃ id, generateUniqueID halves = Some (id, shift 31 halves)
        ∧ String.length id = 36
        ∧ matches "hhhhhhhh-hhhh-4hhh-hhhh-hhhhhhhhhhhh" id = true
        ∧ (uuid_v4_layout id = true ↔ (halves 15%nat < 1 # 16)%Q).
Proof. exact (generateUniqueID_layout halves in_range_halves). Defined.

Lemma Lib_generateUniqueID_uuid_v4_witness :
  ∃ id, Lib.generateUniqueID halves = Some (id, shift 31 halves)
        ∧ String.length id = 36
        ∧ uuid_v4_layout id = true.
Proof. exact (Lib_generateUniqueID_uuid_v4 halves in_range_halves). Defined.

Section Construction.

Context {T : Type}.
Implicit Types (h : heap T).

Lemma fresh_lookup h : h !! fresh (dom h) = None.
Proof. apply not_elem_of_dom, is_fresh. Qed.

Lemma new_HierarchyNode_run (metadata : option T) src h :
  ∃ id, new_HierarchyNode metadata src h
        = Some (fresh (dom h), shift 31 src,
                <[fresh (dom h) := mkNode id None [] metadata]> h).
Proof.
  destruct (generateUniqueID_total src) as [id Hid]. exists id.
  unfold new_HierarchyNode. by rewrite Hid.
Qed.

(** X10.  [new HierarchyNode(metadata)] succeeds on every store and for
    every outcome of the random draws, of which it takes 31.  The new
    object is none of the old ones, and the old ones are left as they were.
    It has no parent, no children and the given metadata; looking it up by
    its own identifier returns it, there is nothing to remove below it, and
    a traversal from it visits it alone. *)
Theorem new_HierarchyNode_fresh (metadata : option T) src h :
  ∃ this id h', new_HierarchyNode metadata src h = Some (this, shift 31 src, h')
    ∧ h !! this = None
    ∧ h' !! this = Some (mkNode id None [] metadata)
    ∧ (∀ x, x ≠ this → h' !! x = h !! x)
    ∧ (∀ fuel, getNodeById (S fuel) this id h' = Some (Some this, h'))
    ∧ (∀ fuel targetId, removeNodeById (S fuel) this targetId h' = Some (false, h'))
    ∧ (∀ fuel, traverse (S (S fuel)) this (observer collect) [] h'
               = Some ([this], h')).
Proof.
  destruct (new_HierarchyNode_run metadata src h) as [id Hrun].
  exists (fresh (dom h)), id, (<[fresh (dom h) := mkNode id None [] metadata]> h).
  split; [done|]. split; [apply fresh_lookup|].
  assert ((<[fresh (dom h) := mkNode id None [] metadata]> h) !! fresh (dom h)
          = Some (mkNode id None [] metadata)) as Hnew by apply lookup_insert_eq.
  split; [done|]. split; [by intros x Hx; rewrite lookup_insert_ne|].
  split; [|split].
  - intros fuel. cbn [getNodeById]. rewrite (bind_getNode _ _ _ _ Hnew).
    simpl. by rewrite String.eqb_refl.
  - intros fuel targetId. unfold removeNodeById. cbn [removeFrom].
    by rewrite (bind_getNode _ _ _ _ Hnew).
  - intros fuel. cbn [traverse traverseFrom]. unfold bind at 1, observer at 1.
    by rewrite (bind_getNode _ _ _ _ Hnew).
Qed.

(** X11.  The test [Find by id] of the repository holds for every outcome
    of the random draws.  Two nodes are constructed, the second is attached
    to the first with [addNode], and [getNodeById] is called on the first
    with the identifier of the second: the object returned carries that
    identifier.  It is the second node, unless both drew the same
    identifier, in which case the first one is returned. *)
Theorem test_find_by_id (m1 m2 : option T) src h fuel :
  2 ≤ fuel →
  ∃ node src1 h1 childNode src2 h2 h3 found nNode nChild nFound,
    new_HierarchyNode m1 src h = Some (node, src1, h1)
    ∧ new_HierarchyNode m2 src1 h1 = Some (childNode, src2, h2)
    ∧ addNode node childNode h2 = Some (tt, h3)
    ∧ h3 !! node = Some nNode ∧ h3 !! childNode = Some nChild
    ∧ getNodeById fuel node (internalId nChild) h3 = Some (Some found, h3)
    ∧ h3 !! found = Some nFound
    ∧ internalId nFound = internalId nChild
    ∧ found = (if String.eqb (internalId nNode) (internalId nChild)
               then node else childNode).
Proof.
  intros Hfuel.
  destruct (new_HierarchyNode_run m1 src h) as [id1 Hrun1].
  set (node := fresh (dom h)) in *.
  set (h1 := <[node := mkNode id1 None [] m1]> h) in *.
  destruct (new_HierarchyNode_run m2 (shift 31 src) h1) as [id2 Hrun2].
  set (childNode := fresh (dom h1)) in *.
  set (h2 := <[childNode := mkNode id2 None [] m2]> h1) in *.
  assert (childNode ≠ node) as Hne.
  { intros Heq. pose proof (fresh_lookup h1) as Hfresh.
    fold childNode in Hfresh. rewrite Heq in Hfresh. subst h1.
    by rewrite lookup_insert_eq in Hfresh. }
  assert (h2 !! node = Some (mkNode id1 None [] m1)) as Hnode.
  { subst h2 h1. rewrite lookup_insert_ne by done. apply lookup_insert_eq. }
  assert (h2 !! childNode = Some (mkNode id2 None [] m2)) as Hchild.
  { subst h2. apply lookup_insert_eq. }
  pose proof (addNode_run h2 node childNode _ _ Hnode Hchild) as Hadd.
  set (h3 := attached node childNode _ _ h2) in *.
  assert (h3 !! node = Some (mkNode id1 None [childNode] m1)) as Hnode3.
  { subst h3. unfold attached. rewrite lookup_insert_ne by done. rewrite Hnode.
    apply lookup_insert_eq. }
  assert (h3 !! childNode = Some (mkNode id2 (Some id1) [] m2)) as Hchild3.
  { subst h3. unfold attached. rewrite lookup_insert_ne by done. rewrite Hnode.
    rewrite lookup_insert_ne by done. apply lookup_insert_eq. }
  destruct fuel as [|[|fuel]]; [lia..|].
  exists node, (shift 31 src), h1, childNode, (shift 31 (shift 31 src)), h2, h3.
  exists (if String.eqb id1 id2 then node else childNode).
  exists (mkNode id1 None [childNode] m1), (mkNode id2 (Some id1) [] m2).
  exists (if String.eqb id1 id2 then mkNode id1 None [childNode] m1
          else mkNode id2 (Some id1) [] m2).
  split; [done|]. split; [done|]. split; [done|]. split; [done|]. split; [done|].
  cbn [internalId]. split; [|split; [|split]].
  - cbn [getNodeById]. rewrite (bind_getNode _ _ _ _ Hnode3). cbn [internalId children].
    destruct (String.eqb id1 id2); [done|].
    assert (getNodeById (S fuel) childNode id2 h3 = Some (Some childNode, h3))
      as Hget.
    { cbn [getNodeById]. rewrite (bind_getNode _ _ _ _ Hchild3). cbn [internalId].
      by rewrite String.eqb_refl. }
    cbn [firstResult]. by rewrite (bind_Some _ _ _ _ _ Hget).
  - by destruct (String.eqb id1 id2).
  - destruct (String.eqb id1 id2) eqn:Heq; [|done]. by apply String.eqb_eq in Heq.
  - done.
Qed.

End Construction.

Lemma test_find_by_id_witness :
  ∃ node src1 h1 childNode src2 h2 h3 found nNode nChild nFound,
    new_HierarchyNode (@None nat) halves ∅ = Some (node, src1, h1)
    ∧ new_HierarchyNode (@None nat) src1 h1 = Some (childNode, src2, h2)
    ∧ addNode node childNode h2 = Some (tt, h3)
    ∧ h3 !! node = Some nNode ∧ h3 !! childNode = Some nChild
    ∧ getNodeById 2 node (internalId nChild) h3 = Some (Some found, h3)
    ∧ h3 !! found = Some nFound
    ∧ internalId nFound = internalId nChild
    ∧ found = (if String.eqb (internalId nNode) (internalId nChild)
               then node else childNode).
Proof. exact (test_find_by_id None None halves ∅ 2 (le_n 2)). Defined.

Section Restructuring.

Context {T : Type}.
Implicit Types (h : heap T) (t : rtree) (r : ref).

Lemma fold_left_collect h (l visited : list ref) :
  fold_left (λ acc node, collect acc node h) l visited = visited ++ l.
Proof.
  revert visited. induction l as [|a l IH]; intros visited; simpl.
  - by rewrite app_nil_r.
  - rewrite IH. unfold collect. by rewrite <- app_assoc.
Qed.

Lemma traverse_collect h t fuel :
  unfolds h t = true → 2 * size t ≤ fuel →
  traverse fuel (root t) (observer collect) [] h = Some (preorder t, h).
Proof.
  intros Hunf Hfuel.
  rewrite traverse_unfolds; [|apply observer_keepsChildren|done..].
  by rewrite foldM_observer, fold_left_collect.
Qed.

(** *** Removal keeps the order of what remains *)

Lemma cutForest_order (m : ref → bool) r k cs p i x cs' :
  Forall (λ c, ∀ p i x c', cutTree m c = Some (p, i, x, c') →
    ∃ l1 l2, preorder c = l1 ++ preorder x ++ l2 ∧ preorder c' = l1 ++ l2) cs →
  cutForest (cutTree m) m r k cs = Some (p, i, x, cs') →
  ∃ l1 l2, flat_map preorder cs = l1 ++ preorder x ++ l2
           ∧ flat_map preorder cs' = l1 ++ l2.
Proof.
  intros IH. revert k cs'. induction IH as [|c rest IHc _ IHrest]; intros k cs'; [done|].
  cbn [cutForest]. destruct (m (root c)).
  - intros [= <- <- <- <-]. by exists [], (flat_map preorder rest).
  - destruct (cutTree m c) as [[[[q j] y] c']|].
    + intros [= <- <- <- <-]. destruct (IHc q j y c' eq_refl) as (l1 & l2 & Hc & Hc').
      exists l1, (l2 ++ flat_map preorder rest). cbn [flat_map].
      rewrite Hc, Hc'. by rewrite <- !app_assoc.
    + destruct (cutForest (cutTree m) m r (S k) rest) as [[[[q j] y] rest']|] eqn:Hrest;
        [|done].
      intros [= <- <- <- <-]. destruct (IHrest _ _ Hrest) as (l1 & l2 & Hr & Hr').
      exists (preorder c ++ l1), l2. cbn [flat_map].
      rewrite Hr, Hr'. by rewrite <- !app_assoc.
Qed.

Lemma cutTree_order (m : ref → bool) t p i x t' :
  cutTree m t = Some (p, i, x, t') →
  ∃ l1 l2, preorder t = l1 ++ preorder x ++ l2 ∧ preorder t' = l1 ++ l2.
Proof.
  revert p i x t'. induction t as [r cs IH] using rtree_ind. intros p i x t'.
  cbn [cutTree].
  destruct (cutForest (cutTree m) m r 0 cs) as [[[[q j] y] cs']|] eqn:Hcut; [|done].
  intros [= <- <- <- <-].
  destruct (cutForest_order m r 0 cs q j y cs' IH Hcut) as (l1 & l2 & Hcs & Hcs').
  exists (r :: l1), l2. simpl. by rewrite Hcs, Hcs'.
Qed.

(** X8.  On every tree, a removal that succeeds takes one block out of the
    pre-order listing and leaves the rest in the order it had: a traversal
    after the call visits what a traversal before the call visited, less
    the removed object and everything that was reached from it. *)
Theorem removeNodeById_keeps_order h t targetId x fuel :
  tree h t = true →
  List.find (hasId h targetId) (descendants t) = Some x →
  2 * size t ≤ fuel →
  ∃ h' before removed after,
    removeNodeById fuel (root t) targetId h = Some (true, h')
    ∧ traverse fuel (root t) (observer collect) [] h
      = Some (before ++ removed ++ after, h)
    ∧ traverse fuel (root t) (observer collect) [] h'
      = Some (before ++ after, h')
    ∧ head removed = Some x
    ∧ (∀ d, d ∈ removed ↔ reach h x d).
Proof.
  intros Htree Hfind Hfuel.
  pose proof (tree_unfolds _ _ Htree) as Hunf.
  pose proof (tree_NoDup _ _ Htree) as Hnodup.
  rewrite (removeNodeById_unfolds h t targetId fuel Hunf ltac:(lia)).
  pose proof (cutTree_spec h (hasId h targetId) t Hunf) as Hcut.
  unfold descendants in Hfind.
  destruct (cutTree (hasId h targetId) t) as [[[[p i] xt] t']|] eqn:Hcuteq;
    simpl in Hcut; [|congruence].
  destruct Hcut as (Hfind' & _ & _ & Hunfx & _ & Hroot & Hafter).
  specialize (Hafter Hnodup).
  assert (root xt = x) as Hrootx by congruence.
  destruct (cutTree_order _ _ _ _ _ _ Hcuteq) as (l1 & l2 & Ht & Ht').
  exists (splice p i h), l1, (preorder xt), l2.
  split; [done|]. split; [by rewrite traverse_collect, Ht|]. split.
  - rewrite <- Hroot, traverse_collect, Ht'; [done..|].
    rewrite <- !preorder_length, Ht, Ht', !length_app in *. lia.
  - split; [destruct xt; simpl in *; congruence|].
    intros d. rewrite <- Hrootx. split.
    + by apply preorder_reach.
    + by apply reach_preorder.
Qed.

(** *** Removing twice *)

(** X14.  On every tree whose identifiers are pairwise distinct, removing
    the same identifier a second time changes nothing: after a removal that
    succeeds, the same call returns [false] and leaves the store as the
    first call made it. *)
Theorem removeNodeById_twice h t targetId x fuel :
  tree h t = true → distinctIds h t = true →
  x ∈ descendants t → hasId h targetId x = true → size t ≤ fuel →
  ∃ h', removeNodeById fuel (root t) targetId h = Some (true, h')
        ∧ removeNodeById fuel (root t) targetId h' = Some (false, h').
Proof.
  intros Htree Hdistinct Hx Hid Hfuel.
  pose proof (tree_unfolds _ _ Htree) as Hunf.
  pose proof (tree_NoDup _ _ Htree) as Hnodup.
  rewrite (removeNodeById_unfolds h t targetId fuel Hunf Hfuel).
  pose proof (cutTree_spec h (hasId h targetId) t Hunf) as Hcut.
  destruct (cutTree (hasId h targetId) t) as [[[[p i] xt] t']|]; simpl in Hcut.
  2: { apply find_None_elem with (x := x) in Hcut; [congruence|done]. }
  destruct Hcut as (Hfind & _ & _ & _ & Hperm & Hroot & Hafter).
  specialize (Hafter Hnodup).
  apply find_Some_elem in Hfind as [Hxt Hidxt].
  assert (∀ y, y ∈ descendants t' → y ∈ preorder t') as Hbelow.
  { intros y Hy. destruct t'. simpl. by right. }
  assert (NoDup (preorder t' ++ preorder xt)) as Hnodup' by by rewrite <- Hperm.
  apply list.NoDup_app in Hnodup' as (_ & Hdisj & _).
  exists (splice p i h). split; [done|].
  rewrite <- Hroot. rewrite removeNodeById_unfolds; [|done|].
  2: { rewrite <- !preorder_length in *.
       apply Permutation_length in Hperm. rewrite length_app in Hperm. lia. }
  rewrite (cutTree_None_find (splice p i h)); [done|done|].
  apply find_None_elem. intros y Hy. apply Hbelow in Hy.
  rewrite hasId_splice. destruct (hasId h targetId y) eqn:Hidy; [|done].
  assert (y ∈ preorder t) as Hyt.
  { rewrite Hperm. apply elem_of_app. by left. }
  assert (root xt ∈ preorder t) as Hxt'.
  { rewrite Hperm. apply elem_of_app. right. apply root_in_preorder. }
  assert (y = root xt) as -> by (apply (distinctIds_inj h t targetId); auto).
  destruct (Hdisj _ Hy). apply root_in_preorder.
Qed.

(** *** Attaching below an object of the tree *)

Lemma graft_root p tc t : root (graft p tc t) = root t.
Proof. by destruct t. Qed.

Lemma graft_notin p tc t : p ∉ preorder t → graft p tc t = t.
Proof.
  induction t as [r cs IH] using rtree_ind. simpl. intros Hnotin.
  apply not_elem_of_cons in Hnotin as [Hne Hnotin].
  rewrite bool_decide_eq_false_2 by done. rewrite app_nil_r. f_equal.
  induction IH as [|c rest Hc _ IHrest]; [done|]. simpl in *.
  apply not_elem_of_app in Hnotin as [Hc' Hrest'].
  by rewrite Hc, IHrest.
Qed.

Lemma map_graft_notin p tc cs :
  p ∉ flat_map preorder cs → map (graft p tc) cs = cs.
Proof.
  induction cs as [|c cs IH]; [done|]. simpl.
  intros [Hc Hcs]%not_elem_of_app. by rewrite graft_notin, IH.
Qed.

Lemma unfolds_graft h t tc p np n :
  unfolds h t = true → unfolds h tc = true → p ∉ preorder tc →
  h !! p = Some np → h !! root tc = Some n →
  unfolds (attached p (root tc) np n h) (graft p tc t) = true.
Proof.
  intros Hunf Hunfc Hnotin Hp Hchild.
  assert (unfolds (attached p (root tc) np n h) tc = true) as Hunfc'.
  { apply (unfolds_agree h); [|done]. intros x Hx.
    apply attached_children_ne; [done..|]. by intros ->. }
  induction t as [r cs IH] using rtree_ind.
  apply unfolds_RNode in Hunf as (nr & Hr & Hc & Hf).
  cbn [graft]. apply unfolds_RNode.
  assert (map root (map (graft p tc) cs) = map root cs) as Hroots.
  { rewrite map_map. apply map_ext. intros c. apply graft_root. }
  assert (Forall (λ c, unfolds (attached p (root tc) np n h) c = true)
            (map (graft p tc) cs)) as Hsub.
  { apply List.Forall_forall. intros c' (c & <- & Hin)%in_map_iff.
    apply (proj1 (List.Forall_forall _ _) IH c Hin).
    by apply (proj1 (List.Forall_forall _ _) Hf). }
  destruct (decide (r = p)) as [->|Hne].
  - rewrite bool_decide_eq_true_2 by done.
    pose proof (attached_children h p (root tc) np n Hp Hchild) as Hcs.
    destruct (attached p (root tc) np n h !! p) as [np1|]; [|done].
    injection Hcs as Hcs. exists np1. split; [done|]. split.
    + rewrite Hcs, map_app, Hroots. rewrite Hp in Hr. injection Hr as ->.
      by rewrite Hc.
    + apply Forall_app. split; [done|]. by constructor.
  - rewrite bool_decide_eq_false_2 by done. rewrite app_nil_r.
    pose proof (attached_children_ne h p (root tc) np n r Hp Hchild Hne) as Hcs.
    rewrite Hr in Hcs.
    destruct (attached p (root tc) np n h !! r) as [nr1|]; [|done].
    injection Hcs as Hcs. exists nr1. split; [done|]. split; [|done].
    by rewrite Hcs, Hroots.
Qed.

Lemma preorder_graft_forest h p tc cs :
  Forall (λ c, unfolds h c = true → NoDup (preorder c) → p ∈ preorder c →
    ∃ before pt after, root pt = p ∧ unfolds h pt = true
      ∧ preorder c = before ++ preorder pt ++ after
      ∧ preorder (graft p tc c)
        = before ++ preorder pt ++ preorder tc ++ after) cs →
  Forall (λ c, unfolds h c = true) cs →
  NoDup (flat_map preorder cs) → p ∈ flat_map preorder cs →
  ∃ before pt after, root pt = p ∧ unfolds h pt = true
    ∧ flat_map preorder cs = before ++ preorder pt ++ after
    ∧ flat_map preorder (map (graft p tc) cs)
      = before ++ preorder pt ++ preorder tc ++ after.
Proof.
  induction 1 as [|c rest IHc _ IHrest]; [by intros _ _ ?%elem_of_nil|].
  cbn [flat_map map].
  intros [Hunfc Hunfrest]%list.Forall_cons_1
         (Hnc & Hdisj & Hnrest)%list.NoDup_app Hin.
  destruct (decide (p ∈ preorder c)) as [Hpc|Hpc].
  - destruct (IHc Hunfc Hnc Hpc) as (b & pt & a & Hroot & Hunf & Hc & Hc').
    exists b, pt, (a ++ flat_map preorder rest).
    rewrite (map_graft_notin p tc rest) by by apply Hdisj.
    rewrite Hc', Hc. split; [done|]. split; [done|].
    by rewrite <- !app_assoc.
  - apply elem_of_app in Hin as [Hin|Hin]; [done|].
    destruct (IHrest Hunfrest Hnrest Hin)
      as (b & pt & a & Hroot & Hunf & Hr & Hr').
    exists (preorder c ++ b), pt, a. rewrite (graft_notin p tc c) by done.
    rewrite Hr', Hr. split; [done|]. split; [done|].
    by rewrite <- !app_assoc.
Qed.

Lemma preorder_graft h p tc t :
  unfolds h t = true → NoDup (preorder t) → p ∈ preorder t →
  ∃ before pt after, root pt = p ∧ unfolds h pt = true
    ∧ preorder t = before ++ preorder pt ++ after
    ∧ preorder (graft p tc t) = before ++ preorder pt ++ preorder tc ++ after.
Proof.
  induction t as [r cs IH] using rtree_ind. intros Hunf.
  pose proof Hunf as (nr & Hr & Hc & Hf)%unfolds_RNode.
  cbn [preorder graft].
  intros [Hnotin Hnodup]%list.NoDup_cons Hin.
  destruct (decide (r = p)) as [->|Hne].
  - rewrite bool_decide_eq_true_2 by done.
    rewrite (map_graft_notin p tc cs) by done.
    exists [], (RNode p cs), []. split; [done|]. split; [done|].
    rewrite flat_map_app. simpl. by rewrite !app_nil_r.
  - rewrite bool_decide_eq_false_2 by done. rewrite app_nil_r.
    apply elem_of_cons in Hin as [->|Hin]; [done|].
    destruct (preorder_graft_forest h p tc cs IH Hf Hnodup Hin)
      as (b & pt & a & Hroot & Hunfpt & Hcs & Hcs').
    exists (r :: b), pt, a. rewrite Hcs, Hcs'. by repeat split.
Qed.

(** X15.  Attaching below an object of the tree and finding the child
    again.  Let [child] be the root of a structure that shares no object
    with the tree of the receiver, let no object of the tree carry the
    identifier of [child], and let the first object of the tree that
    carries [targetId] be [p].  Then [addNodeToNode(targetId, child)]
    returns [true]; after it, [getNodeById] on the receiver finds [child] by
    its identifier, [getParentNodeId] gives [targetId] for it (which must
    not be the empty string), and a traversal visits the old objects in the
    old order, with [child] and what it owns put in right after the block
    that begins with [p] and holds what was reached from [p] before the
    call. *)
Theorem addNodeToNode_round_trip h t tc targetId p nc fuel :
  tree h t = true → unfolds h tc = true → h !! root tc = Some nc →
  (∀ x, x ∈ preorder tc → x ∉ preorder t) →
  List.find (hasId h targetId) (preorder t) = Some p →
  List.find (hasId h (internalId nc)) (preorder t) = None →
  targetId ≠ "" →
  2 * (size t + size tc) ≤ fuel →
  ∃ h' before owned after,
    addNodeToNode fuel (root t) targetId (root tc) h = Some (true, h')
    ∧ getNodeById fuel (root t) (internalId nc) h' = Some (Some (root tc), h')
    ∧ getParentNodeId fuel (root t) (internalId nc) h' = Some (Some targetId, h')
    ∧ traverse fuel (root t) (observer collect) [] h
      = Some (before ++ owned ++ after, h)
    ∧ head owned = Some p
    ∧ (∀ d, d ∈ owned ↔ reach h p d)
    ∧ traverse fuel (root t) (observer collect) [] h'
      = Some (before ++ owned ++ preorder tc ++ after, h').
Proof.
  intros Htree Hunfc Hchild Hdisj Hp Hfresh Hne Hfuel.
  pose proof (tree_unfolds _ _ Htree) as Hunf.
  pose proof (tree_NoDup _ _ Htree) as Hnodup.
  pose proof Hp as [Hpin (np & Hnp & Hidp)%hasId_inv]%find_Some_elem.
  assert (p ∉ preorder tc) as Hptc by (intros Hin; by apply (Hdisj p)).
  pose proof (unfolds_graft h t tc p np nc Hunf Hunfc Hptc Hnp Hchild) as Hunf'.
  destruct (preorder_graft h p tc t Hunf Hnodup Hpin)
    as (before & pt & after & Hrootpt & Hunfpt & Ht & Ht').
  set (h' := attached p (root tc) np nc h) in *.
  assert (size (graft p tc t) = size t + size tc) as Hsize.
  { rewrite <- !preorder_length, Ht', Ht, !length_app. lia. }
  assert (getNodeById fuel (root t) (internalId nc) h'
          = Some (Some (root tc), h')) as Hget.
  { rewrite <- (graft_root p tc t).
    rewrite getNodeById_unfolds; [|done|lia]. do 2 f_equal.
    rewrite (find_ext_in _ (hasId h (internalId nc)))
      by (intros; apply hasId_agree; by apply attached_internalId).
    rewrite Ht'. rewrite Ht in Hfresh.
    pose proof (proj1 (find_None_elem _ _) Hfresh) as Hnone.
    rewrite !find_app.
    rewrite (proj2 (find_None_elem _ before))
      by (intros y Hy; apply Hnone, elem_of_app; by left).
    rewrite (proj2 (find_None_elem _ (preorder pt)))
      by (intros y Hy; apply Hnone, elem_of_app; right;
          apply elem_of_app; by left).
    destruct tc as [rc ccs]. cbn [preorder root] in *. simpl.
    by rewrite (hasId_Some _ _ _ _ Hchild), String.eqb_refl. }
  exists h', before, (preorder pt), after.
  split.
  { unfold addNodeToNode.
    rewrite (bind_Some _ _ _ _ _ (getNodeById_unfolds h t targetId fuel Hunf
                                    ltac:(lia))), Hp.
    by rewrite (bind_Some _ _ _ _ _ (addNode_run h p (root tc) np nc Hnp Hchild)). }
  split; [done|]. split.
  { unfold getParentNodeId. rewrite (bind_Some _ _ _ _ _ Hget).
    pose proof (attached_parentId h p (root tc) np nc Hnp Hchild) as Hparent.
    fold h' in Hparent.
    destruct (h' !! root tc) as [nc1|] eqn:Hnc1; [|done].
    injection Hparent as Hparent. rewrite (bind_getNode _ _ _ _ Hnc1), Hparent, Hidp.
    by destruct targetId. }
  split; [rewrite traverse_collect, Ht; [done..|lia]|].
  split; [destruct pt; simpl in *; congruence|].
  split.
  { intros d. rewrite <- Hrootpt. split.
    - by apply preorder_reach.
    - by apply reach_preorder. }
  rewrite <- (graft_root p tc t), traverse_collect, Ht'; [done..|lia].
Qed.

End Restructuring.

Lemma removeNodeById_keeps_order_witness :
  ∃ h' before removed after,
    removeNodeById 8 0 "A" sampleStore = Some (true, h')
    ∧ traverse 8 0 (observer collect) [] sampleStore
      = Some (before ++ removed ++ after, sampleStore)
    ∧ traverse 8 0 (observer collect) [] h' = Some (before ++ after, h')
    ∧ head removed = Some 1
    ∧ (∀ d, d ∈ removed ↔ reach sampleStore 1 d).
Proof.
  apply (removeNodeById_keeps_order sampleStore sampleTree "A" 1 8).
  - vm_compute. reflexivity.
  - reflexivity.
  - simpl. lia.
Defined.

Lemma removeNodeById_twice_witness :
  ∃ h', removeNodeById 4 0 "A" sampleStore = Some (true, h')
        ∧ removeNodeById 4 0 "A" h' = Some (false, h').
Proof.
  apply (removeNodeById_twice sampleStore sampleTree "A" 1 4).
  - vm_compute. reflexivity.
  - vm_compute. reflexivity.
  - change (1 ∈ [1; 2; 3]). left.
  - reflexivity.
  - simpl. lia.
Defined.

Lemma addNodeToNode_round_trip_witness :
  ∃ h' before owned after,
    addNodeToNode 10 0 "A" 4 detachedStore = Some (true, h')
    ∧ getNodeById 10 0 "D" h' = Some (Some 4, h')
    ∧ getParentNodeId 10 0 "D" h' = Some (Some "A", h')
    ∧ traverse 10 0 (observer collect) [] detachedStore
      = Some (before ++ owned ++ after, detachedStore)
    ∧ head owned = Some 1
    ∧ (∀ d, d ∈ owned ↔ reach detachedStore 1 d)
    ∧ traverse 10 0 (observer collect) [] h'
      = Some (before ++ owned ++ [4] ++ after, h').
Proof.
  apply (addNodeToNode_round_trip detachedStore sampleTree (RNode 4 []) "A" 1
           (leaf "D" None) 10).
  - vm_compute. reflexivity.
  - reflexivity.
  - reflexivity.
  - intros x Hx. apply list_elem_of_singleton in Hx as ->.
    intros Hin. repeat (apply elem_of_cons in Hin as [Hin|Hin]; [discriminate|]).
    by apply elem_of_nil in Hin.
  - reflexivity.
  - reflexivity.
  - discriminate.
  - simpl. lia.
Defined.

Section Composition.

Context {T : Type}.

(** X16.  [addNodeToNode] is [runFunctionOnNode] with [addNode] as the
    callback and the child as its parameter: on every store, cyclic or
    not, the two calls return the same value and leave the same store, and
    one fails to return exactly when the other does. *)
Theorem addNodeToNode_as_runFunctionOnNode (h : heap T) fuel this targetId child :
  addNodeToNode fuel this targetId child h
  = runFunctionOnNode fuel this targetId (λ target c, addNode target c) child h.
Proof.
  unfold addNodeToNode, runFunctionOnNode, runCustomFunction, bind.
  destruct (getNodeById fuel this targetId h) as [[[target|] h1]|]; reflexivity.
Qed.

End Composition.
